(** * MochiMochi: binary online-learning classifiers

    A shallow embedding of the classifiers of [mochimochi/classifier/binary]
    (PA, ADAGRAD_RDA, ADAM, NHERD) and of the creators of
    [mochimochi/classifier/factory/binary_oml_factory.hpp].

    Conventions of the embedding.
    - [double] is the type [R] of real numbers: the arithmetic of the
      classifiers is read as exact arithmetic.  Rounding, overflow and the
      IEEE special values are outside the model; a quotient [a / b] is
      Stdlib's total division (so [a / 0 = 0], where the code yields an
      infinity or a NaN).  A theorem that states the value of a quotient
      therefore assumes what makes its denominator non-zero ([C > 0] for the
      step size of PA-II and for the [alpha] of NHERD).
    - [int] is [Z]; [std::size_t] is [Z] reduced modulo [2^64] where the
      code increments it.  An [int] or [std::size_t] operand of a [double]
      operation is converted with [IZR].
    - [Eigen::VectorXd] is [list R]; coefficient access outside the vector
      and a [dot] of vectors of different sizes stop the program (Eigen's
      assertions), like a failed [assert] of the code itself.
    - A method is a function from the object to a [result] holding the
      returned value and the object after the call.
    - The files [save] writes and [load] reads are a finite map from files
      to archives; which file a name denotes, and whether a stream on that
      name opens, is the environment's ([FileSystem]). *)

From Stdlib Require Import Reals Lra Lia ZArith.
From stdpp Require Import base list strings gmap.

Local Open Scope R_scope.

(** ** Results of calls that may stop the program *)

Inductive error : Type :=
| AssertionFailed   (* a failed [assert], of the code or of Eigen *)
| BadFunctionCall.  (* [std::bad_function_call]: an empty [std::function] was called *)

Inductive result (A : Type) : Type :=
| Ok (a : A)
| Err (e : error).
Arguments Ok {A} a.
Arguments Err {A} e.

#[export] Instance result_ret : MRet result := fun A a => Ok a.
#[export] Instance result_bind : MBind result := fun A B f m =>
  match m with
  | Ok a => f a
  | Err e => Err e
  end.

Definition assert (b : bool) : result unit :=
  if b then Ok tt else Err AssertionFailed.

(** ** Numbers *)

#[export] Instance Rle_decision : RelDecision Rle := Rle_dec.
#[export] Instance Rlt_decision : RelDecision Rlt := Rlt_dec.
#[export] Instance Rge_decision : RelDecision Rge := Rge_dec.
#[export] Instance Rgt_decision : RelDecision Rgt := Rgt_dec.
#[export] Instance Req_decision : EqDecision R := Req_dec_T.

(** [std::max(a, b)] is [(a < b) ? b : a]; [std::min(a, b)] is
    [(b < a) ? b : a]. *)
Definition std_max (a b : R) : R := if decide (a < b) then b else a.
Definition std_min (a b : R) : R := if decide (b < a) then b else a.

(** [std::pow(base, n)] with an unsigned integer exponent. *)
Definition std_pow (base : R) (n : Z) : R := base ^ Z.to_nat n.

(** [x++] on a [std::size_t]. *)
Definition size_t_incr (x : Z) : Z := ((x + 1) mod 2 ^ 64)%Z.

(** Conversion of a [double] to [int]: the fractional part is discarded. *)
Definition double_to_int (r : R) : Z :=
  if decide (0 <= r) then Int_part r else (- Int_part (- r))%Z.

(** ** Vectors *)

Abbreviation VectorXd := (list R).

Definition Zero (dim : Z) : VectorXd := replicate (Z.to_nat dim) 0.
Definition Ones (dim : Z) : VectorXd := replicate (Z.to_nat dim) 1.

Fixpoint sum_of_products (a b : VectorXd) : R :=
  match a, b with
  | ai :: a', bi :: b' => ai * bi + sum_of_products a' b'
  | _, _ => 0
  end.

(** [a.dot(b)]; Eigen asserts that the sizes agree. *)
Definition dot (a b : VectorXd) : result R :=
  if decide (length a = length b) then Ok (sum_of_products a b)
  else Err AssertionFailed.

(** [v[index]] read and written; Eigen asserts that the index is in range. *)
Definition coeff (v : VectorXd) (index : nat) : result R :=
  match v !! index with
  | Some r => Ok r
  | None => Err AssertionFailed
  end.

Definition set_coeff (v : VectorXd) (index : nat) (r : R) : result VectorXd :=
  if decide (index < length v)%nat then Ok (<[index := r]> v)
  else Err AssertionFailed.

(** ** functions::enumerate *)

(** Modelled from the spec: [functions/enumerate.hpp] is not among the
    sources.  Its call sites pass the range [data(), data() + size()] of a
    vector, the initial index 0 and a callback taking [(index, value)].  The
    spec describes it as an indexed iteration that reaches (at least) the
    non-zero entries.  The entries on which the callback is invoked are
    therefore a parameter, [visits]: every non-zero entry is visited, a zero
    entry may or may not be.  [visit_all] is the plain indexed loop,
    [visit_nonzero] the iteration over the non-zero entries only. *)
Class Enumerate : Type := {
  visits : R -> bool;
  visits_nonzero : forall value, value <> 0 -> visits value = true
}.

Definition visit_all : Enumerate :=
  {| visits := fun _ => true; visits_nonzero := fun _ _ => eq_refl |}.

Definition visit_nonzero : Enumerate :=
  {| visits := fun value => bool_decide (value <> 0);
     visits_nonzero := fun value Hvalue => bool_decide_eq_true_2 _ Hvalue |}.

(** The callback [func] runs on the entries in index order, threading the
    object it mutates. *)
Fixpoint enumerate {E : Enumerate} {St : Type} (values : list R) (initial : nat)
    (func : nat -> R -> St -> result St) (s : St) : result St :=
  match values with
  | [] => Ok s
  | value :: rest =>
      s' ← (if visits value then func initial value s else Ok s);
      enumerate rest (S initial) func s'
  end.

(** ** Files *)

(** [std::ofstream ofs(filename)] and [std::ifstream ifs(filename)] open the
    file the name denotes in the directory the program runs in.  [file_of]
    is that directory: the file a name denotes, or [None] when no stream on
    the name opens (an empty name, the name of a directory, a path through a
    missing directory).  Two names may denote the same file.  [plain_names]
    is a directory in which every name denotes a file of its own. *)
Class FileSystem : Type := {
  file_of : string -> option string
}.

Definition plain_names : FileSystem := {| file_of := Some |}.

(** [std::ofstream ofs(filename); assert(ofs);], then the archive is written:
    the file is created or replaced. *)
Definition write_file {F : FileSystem} {A : Type} (filename : string)
    (contents : A) (files : gmap string A) : result (gmap string A) :=
  match file_of filename with
  | Some file => Ok (<[file := contents]> files)
  | None => Err AssertionFailed
  end.

(** [std::ifstream ifs(filename); assert(ifs);]: the stream opens when the
    name denotes a file that exists. *)
Definition read_file {F : FileSystem} {A : Type} (filename : string)
    (files : gmap string A) : result A :=
  match file_of filename ≫= (files !!.) with
  | Some contents => Ok contents
  | None => Err AssertionFailed
  end.

(** ** PA ([mochimochi/classifier/binary/pa.hpp]) *)

Module PA.

(** The three lambdas the constructor can store in [_compute_tau].  Each
    captures [this], so [kC] is read from the object when the lambda runs. *)
Inductive tau_lambda : Type :=
| tau_case0   (* 0 : PA *)
| tau_case1   (* 1 : PA-I *)
| tau_case2.  (* 2 : PA-II *)

(** The object.  [_compute_tau] is [None] for an empty [std::function]. *)
Record t : Type := mk {
  kDim : Z;
  kC : R;
  kSelect : Z;
  _weight : VectorXd;
  _compute_tau : option tau_lambda
}.

Definition set_weight (m : t) (weight : VectorXd) : t :=
  mk (kDim m) (kC m) (kSelect m) weight (_compute_tau m).

(** The constructor.  Its two [static_assert]s compare
    [std::numeric_limits<...>::max()] with 0 and hold for every call; the
    [default] branch builds a [std::runtime_error] and drops it, leaving
    [_compute_tau] empty.  No call of the constructor fails. *)
Definition new (dim : Z) (C : R) (select : Z) : result t :=
  Ok (mk dim C select (Zero dim)
        (match select with
         | 0%Z => Some tau_case0
         | 1%Z => Some tau_case1
         | 2%Z => Some tau_case2
         | _ => None
         end)).

(** [PA(dim, C)]: [select] defaults to 2. *)
Definition new_default (dim : Z) (C : R) : result t := new dim C 2.

(** The body of each lambda, on [(value, loss)].  Cases 0 and 1 test
    [value == 0] before they use the quotient.  Case 2 does not: its
    denominator [value^2 + kC / 2] is positive for [kC > 0], the range the
    [static_assert] message of the constructor names, and can vanish
    otherwise. *)
Definition tau_body (C : R) (f : tau_lambda) (value loss : R) : R :=
  match f with
  | tau_case0 =>
      if decide (value = 0) then 0 else loss / Rabs value ^ 2
  | tau_case1 =>
      let pa := loss / Rabs value ^ 2 in
      if decide (value = 0) then C else std_min C pa
  | tau_case2 =>
      loss / (Rabs value ^ 2 + 1 / 2 * C)
  end.

(** [_compute_tau(value, loss)]. *)
Definition call_compute_tau (m : t) (value loss : R) : result R :=
  match _compute_tau m with
  | Some f => Ok (tau_body (kC m) f value loss)
  | None => Err BadFunctionCall
  end.

Definition suffer_loss (m : t) (x : VectorXd) (y : Z) : result R :=
  d ← dot (_weight m) x;
  mret (std_max 0 (1 - IZR y * d)).

Definition compute_margin (m : t) (x : VectorXd) : result R :=
  dot (_weight m) x.

Definition name (m : t) : string := "PA".

(** The callback of [update]. *)
Definition update_coordinate (loss : R) (label : Z)
    (index : nat) (value : R) (m : t) : result t :=
  tau ← call_compute_tau m value loss;
  wi ← coeff (_weight m) index;
  weight ← set_coeff (_weight m) index (wi + tau * IZR label * value);
  mret (set_weight m weight).

Definition update {E : Enumerate} (m : t) (feature : VectorXd) (label : Z)
    : result (bool * t) :=
  loss ← suffer_loss m feature label;
  m' ← enumerate feature 0 (update_coordinate loss label) m;
  mret (true, m').

Definition predict (m : t) (x : VectorXd) : result Z :=
  margin ← compute_margin m x;
  mret (if decide (margin > 0) then 1%Z else (-1)%Z).

Definition get_weight (m : t) : VectorXd := _weight m.

(** The archive: the fields in the order [save] writes them. *)
Record archive : Type := mk_archive {
  ar_weight : list R;
  ar_dimension : Z;
  ar_C : R;
  ar_select : Z
}.

(** [save(Archive&, version)]. *)
Definition save_archive (m : t) : archive :=
  mk_archive (_weight m) (kDim m) (kC m) (kSelect m).

(** [load(Archive&, version)]: the three constants are overwritten through
    [const_cast] and [_weight] is assigned; [_compute_tau] is not touched. *)
Definition load_archive (m : t) (ar : archive) : t :=
  mk (ar_dimension ar) (ar_C ar) (ar_select ar) (ar_weight ar)
     (_compute_tau m).

(** [save(filename)] and [load(filename)] on a store of files; each asserts
    that its stream is open. *)
Definition save {F : FileSystem} (m : t) (filename : string)
    (files : gmap string archive) : result (gmap string archive) :=
  write_file filename (save_archive m) files.

Definition load {F : FileSystem} (m : t) (filename : string)
    (files : gmap string archive) : result t :=
  ar ← read_file filename files;
  mret (load_archive m ar).

End PA.

(** ** ADAGRAD_RDA ([mochimochi/classifier/binary/adagrad_rda.hpp]) *)

Module ADAGRAD_RDA.

Record t : Type := mk {
  kDim : Z;
  kEta : R;
  kLambda : R;
  _timestep : Z;
  _w : VectorXd;
  _h : VectorXd;
  _g : VectorXd
}.

Definition set_timestep (m : t) (timestep : Z) : t :=
  mk (kDim m) (kEta m) (kLambda m) timestep (_w m) (_h m) (_g m).
Definition set_w (m : t) (w : VectorXd) : t :=
  mk (kDim m) (kEta m) (kLambda m) (_timestep m) w (_h m) (_g m).
Definition set_h (m : t) (h : VectorXd) : t :=
  mk (kDim m) (kEta m) (kLambda m) (_timestep m) (_w m) h (_g m).
Definition set_g (m : t) (g : VectorXd) : t :=
  mk (kDim m) (kEta m) (kLambda m) (_timestep m) (_w m) (_h m) g.

(** The constructor: the three [assert]s of its body. *)
Definition new (dim : Z) (eta lambda : R) : result t :=
  _ ← assert (bool_decide (dim > 0)%Z);
  _ ← assert (bool_decide (eta > 0));
  _ ← assert (bool_decide (lambda > 0));
  mret (mk dim eta lambda 0 (Zero dim) (Zero dim) (Zero dim)).

Definition calculate_margin (m : t) (x : VectorXd) : result R :=
  dot (_w m) x.

Definition suffer_loss (m : t) (x : VectorXd) (y : Z) : result R :=
  d ← dot (_w m) x;
  mret (std_max 0 (1 - IZR y * d)).

Definition name (m : t) : string := "ADAGRAD_RDA".

(** The value [update] stores in [_w[index]], from the accumulated
    [g = _g[index]] and [h = _h[index]] and the time step. *)
Definition threshold (kEta kLambda : R) (timestep : Z) (g h : R) : R :=
  let sign := if decide (g >= 0) then 1%Z else (-1)%Z in
  let eta := kEta / sqrt h in
  let u := Rabs g / IZR timestep in
  if decide (u <= kLambda) then 0
  else IZR (- sign) * eta * IZR timestep * (u - kLambda).

(** The callback of [update]. *)
Definition update_coordinate (label : Z)
    (index : nat) (value : R) (m : t) : result t :=
  let gradiant := IZR (- label) * value in
  gi ← coeff (_g m) index;
  g ← set_coeff (_g m) index (gi + gradiant);
  let m := set_g m g in
  hi ← coeff (_h m) index;
  h ← set_coeff (_h m) index (hi + gradiant * gradiant);
  let m := set_h m h in
  gi ← coeff (_g m) index;
  hi ← coeff (_h m) index;
  w ← set_coeff (_w m) index
        (threshold (kEta m) (kLambda m) (_timestep m) gi hi);
  mret (set_w m w).

Definition update {E : Enumerate} (m : t) (feature : VectorXd) (label : Z)
    : result (bool * t) :=
  loss ← suffer_loss m feature label;
  if decide (loss <= 0) then mret (false, m)
  else
    let m := set_timestep m (size_t_incr (_timestep m)) in
    m' ← enumerate feature 0 (update_coordinate label) m;
    mret (true, m').

Definition predict (m : t) (x : VectorXd) : result Z :=
  margin ← calculate_margin m x;
  mret (if decide (margin > 0) then 1%Z else (-1)%Z).

(** The archive: the fields in the order [save] writes them. *)
Record archive : Type := mk_archive {
  ar_w : list R;
  ar_h : list R;
  ar_g : list R;
  ar_dimension : Z;
  ar_eta : R;
  ar_lambda : R;
  ar_timestep : Z
}.

(** [save(Archive&, version)]. *)
Definition save_archive (m : t) : archive :=
  mk_archive (_w m) (_h m) (_g m) (kDim m) (kEta m) (kLambda m) (_timestep m).

(** [load(Archive&, version)]: every member of the object is overwritten. *)
Definition load_archive (m : t) (ar : archive) : t :=
  mk (ar_dimension ar) (ar_eta ar) (ar_lambda ar) (ar_timestep ar)
     (ar_w ar) (ar_h ar) (ar_g ar).

Definition save {F : FileSystem} (m : t) (filename : string)
    (files : gmap string archive) : result (gmap string archive) :=
  write_file filename (save_archive m) files.

Definition load {F : FileSystem} (m : t) (filename : string)
    (files : gmap string archive) : result t :=
  ar ← read_file filename files;
  mret (load_archive m ar).

End ADAGRAD_RDA.

(** ** ADAM ([mochimochi/classifier/binary/adam.hpp]) *)

Module ADAM.

Record t : Type := mk {
  kDim : Z;
  _timestep : Z;
  _w : VectorXd;
  _m : VectorXd;
  _v : VectorXd
}.

Definition set_timestep (a : t) (timestep : Z) : t :=
  mk (kDim a) timestep (_w a) (_m a) (_v a).
Definition set_w (a : t) (w : VectorXd) : t :=
  mk (kDim a) (_timestep a) w (_m a) (_v a).
Definition set_m (a : t) (m : VectorXd) : t :=
  mk (kDim a) (_timestep a) (_w a) m (_v a).
Definition set_v (a : t) (v : VectorXd) : t :=
  mk (kDim a) (_timestep a) (_w a) (_m a) v.

Definition new (dim : Z) : result t :=
  _ ← assert (bool_decide (dim > 0)%Z);
  mret (mk dim 0 (Zero dim) (Zero dim) (Zero dim)).

Definition suffer_loss (a : t) (x : VectorXd) (y : Z) : result R :=
  d ← dot (_w a) x;
  mret (std_max 0 (1 - IZR y * d)).

Definition calculate_margin (a : t) (x : VectorXd) : result R :=
  dot (_w a) x.

Definition kAlpha : R := 1 / 1000.
Definition kBeta1 : R := 9 / 10.
Definition kBeta2 : R := 999 / 1000.
Definition kEpsilon : R := 1 / 100000000.
Definition kLambda : R := 99999999 / 100000000.

(** The callback of [update]. *)
Definition update_coordinate (beta1_t : R)
    (index : nat) (value : R) (a : t) : result t :=
  mi ← coeff (_m a) index;
  m ← set_coeff (_m a) index (beta1_t * mi + (1 - beta1_t) * value);
  let a := set_m a m in
  vi ← coeff (_v a) index;
  v ← set_coeff (_v a) index (kBeta2 * vi + (1 - kBeta2) * value * value);
  let a := set_v a v in
  mi ← coeff (_m a) index;
  let m_t := mi / (1 - std_pow kBeta1 (_timestep a)) in
  vi ← coeff (_v a) index;
  let v_t := vi / (1 - std_pow kBeta2 (_timestep a)) in
  wi ← coeff (_w a) index;
  w ← set_coeff (_w a) index (wi - kAlpha * m_t / (sqrt v_t + kEpsilon));
  mret (set_w a w).

Definition update {E : Enumerate} (a : t) (feature : VectorXd) (label : Z)
    : result (bool * t) :=
  loss ← suffer_loss a feature label;
  if decide (loss <= 0) then mret (false, a)
  else
    let gradiant := (fun value => IZR (- label) * value) <$> feature in
    let beta1_t := std_pow kLambda (_timestep a) * kBeta1 in
    let a := set_timestep a (size_t_incr (_timestep a)) in
    a' ← enumerate gradiant 0 (update_coordinate beta1_t) a;
    mret (true, a').

Definition predict (a : t) (feature : VectorXd) : result Z :=
  margin ← calculate_margin a feature;
  mret (if decide (margin > 0) then 1%Z else (-1)%Z).

(** The archive: the fields in the order [save] writes them; [_timestep]
    is not among them. *)
Record archive : Type := mk_archive {
  ar_w : list R;
  ar_m : list R;
  ar_v : list R;
  ar_dimension : Z
}.

(** [save(Archive&, version)]. *)
Definition save_archive (a : t) : archive :=
  mk_archive (_w a) (_m a) (_v a) (kDim a).

(** [load(Archive&, version)]: [kDim] and the three vectors are
    overwritten; [_timestep] is not touched. *)
Definition load_archive (a : t) (ar : archive) : t :=
  mk (ar_dimension ar) (_timestep a) (ar_w ar) (ar_m ar) (ar_v ar).

Definition save {F : FileSystem} (a : t) (filename : string)
    (files : gmap string archive) : result (gmap string archive) :=
  write_file filename (save_archive a) files.

Definition load {F : FileSystem} (a : t) (filename : string)
    (files : gmap string archive) : result t :=
  ar ← read_file filename files;
  mret (load_archive a ar).

End ADAM.

(** ** NHERD (the second class of [mochimochi/classifier/binary/adagrad_rda.hpp]) *)

Module NHERD.

(** The four lambdas the constructor can store in [_compute_covariance]. *)
Inductive covariance_lambda : Type :=
| cov_case0   (* 0 : Full covariance *)
| cov_case1   (* 1 : Exact covariance *)
| cov_case2   (* 2 : Project covariance *)
| cov_case3.  (* 3 : Drop covariance *)

Record t : Type := mk {
  kDim : Z;
  kC : R;
  kDiagonal : Z;
  _covariances : VectorXd;
  _means : VectorXd;
  _compute_covariance : option covariance_lambda
}.

Definition set_covariances (m : t) (covariances : VectorXd) : t :=
  mk (kDim m) (kC m) (kDiagonal m) covariances (_means m)
     (_compute_covariance m).
Definition set_means (m : t) (means : VectorXd) : t :=
  mk (kDim m) (kC m) (kDiagonal m) (_covariances m) means
     (_compute_covariance m).

(** The constructor: as in [PA], nothing is checked and the [default]
    branch leaves [_compute_covariance] empty. *)
Definition new (dim : Z) (C : R) (diagonal : Z) : result t :=
  Ok (mk dim C diagonal (Ones dim) (Zero dim)
        (match diagonal with
         | 0%Z => Some cov_case0
         | 1%Z => Some cov_case1
         | 2%Z => Some cov_case2
         | 3%Z => Some cov_case3
         | _ => None
         end)).

(** The body of each lambda, on [(covariance, confidence, value)]. *)
Definition covariance_body (C : R) (f : covariance_lambda)
    (covariance confidence value : R) : R :=
  match f with
  | cov_case0 =>
      let v := covariance * value in
      covariance - (v * v * (C * C * confidence + 2 * C)
                    / (1 + C * confidence) ^ 2)
  | cov_case1 =>
      covariance / (1 + C * value * value * covariance) ^ 2
  | cov_case2 =>
      1 / ((1 / covariance) + (2 * C + C * C * confidence) * value * value)
  | cov_case3 =>
      let v := (covariance * value) ^ 2 * (C * C * confidence + 2 * C)
               / (1 + C * confidence) ^ 2 in
      covariance - v
  end.

(** [_compute_covariance(covariance, confidence, value)]. *)
Definition call_compute_covariance (m : t)
    (covariance confidence value : R) : result R :=
  match _compute_covariance m with
  | Some f => Ok (covariance_body (kC m) f covariance confidence value)
  | None => Err BadFunctionCall
  end.

Definition suffer_loss (margin : R) (label : Z) : R := margin * IZR label.

Definition compute_margin (m : t) (x : VectorXd) : result R :=
  dot (_means m) x.

Definition compute_confidence {E : Enumerate} (m : t) (feature : VectorXd)
    : result R :=
  enumerate feature 0
    (fun index value confidence =>
       ci ← coeff (_covariances m) index;
       mret (confidence + ci * value * value))
    0.

Definition name (m : t) : string := "NHERD".

(** The callback of [update]. *)
Definition update_coordinate (alpha confidence : R) (label : Z)
    (index : nat) (value : R) (m : t) : result t :=
  mi ← coeff (_means m) index;
  ci ← coeff (_covariances m) index;
  means ← set_coeff (_means m) index (mi + alpha * IZR label * ci * value);
  let m := set_means m means in
  ci ← coeff (_covariances m) index;
  c ← call_compute_covariance m ci confidence value;
  covariances ← set_coeff (_covariances m) index c;
  mret (set_covariances m covariances).

(** [alpha] divides by [confidence + 1 / kC]: the two quotients are genuine
    for [kC <> 0] and [confidence + 1 / kC <> 0], which holds for [kC > 0]
    and non-negative covariances. *)
Definition update {E : Enumerate} (m : t) (feature : VectorXd) (label : Z)
    : result (bool * t) :=
  margin ← compute_margin m feature;
  if decide (suffer_loss margin label >= 1) then mret (false, m)
  else
    confidence ← compute_confidence m feature;
    let alpha := std_max 0 (1 - IZR label * margin)
                 / (confidence + 1 / kC m) in
    m' ← enumerate feature 0 (update_coordinate alpha confidence label) m;
    mret (true, m').

Definition predict (m : t) (x : VectorXd) : result Z :=
  margin ← compute_margin m x;
  mret (if decide (margin > 0) then 1%Z else (-1)%Z).

Definition get_means (m : t) : VectorXd := _means m.

(** The archive: the fields in the order [save] writes them. *)
Record archive : Type := mk_archive {
  ar_covariances : list R;
  ar_means : list R;
  ar_dimension : Z;
  ar_C : R;
  ar_diagonal : Z
}.

(** [save(Archive&, version)]. *)
Definition save_archive (m : t) : archive :=
  mk_archive (_covariances m) (_means m) (kDim m) (kC m) (kDiagonal m).

(** [load(Archive&, version)]: the three constants and the two vectors are
    overwritten; [_compute_covariance] is not touched. *)
Definition load_archive (m : t) (ar : archive) : t :=
  mk (ar_dimension ar) (ar_C ar) (ar_diagonal ar)
     (ar_covariances ar) (ar_means ar) (_compute_covariance m).

Definition save {F : FileSystem} (m : t) (filename : string)
    (files : gmap string archive) : result (gmap string archive) :=
  write_file filename (save_archive m) files.

Definition load {F : FileSystem} (m : t) (filename : string)
    (files : gmap string archive) : result t :=
  ar ← read_file filename files;
  mret (load_archive m ar).

End NHERD.

(** ** AROW and SCW *)

(** Modelled from the spec: [arow.hpp] is not among the sources.  The spec
    names AROW as a confidence-weighted variant with its own
    hyperparameters; the creator constructs it as [AROW(dim, r)].  Only the
    constructed hyperparameters are recorded. *)
Module AROW.

Record t : Type := mk {
  kDim : Z;
  kR : R
}.

Definition new (dim : Z) (r : R) : result t := Ok (mk dim r).

Definition name (m : t) : string := "AROW".

End AROW.

(** Modelled from the spec: [scw.hpp] is not among the sources.  The spec
    names SCW as a confidence-weighted variant; its creator receives
    [(dim, c, eta)].  Only the constructed hyperparameters are recorded. *)
Module SCW.

Record t : Type := mk {
  kDim : Z;
  kC : R;
  kEta : R
}.

Definition new (dim : Z) (C eta : R) : result t := Ok (mk dim C eta).

Definition name (m : t) : string := "SCW".

End SCW.

(** ** The creators ([mochimochi/classifier/factory/binary_oml_factory.hpp]) *)

Module Factory.

(** The algorithms a creator is declared for. *)
Inductive algorithm : Type :=
| ALG_ADAGRAD_RDA | ALG_ADAM | ALG_AROW | ALG_NHERD | ALG_PA | ALG_SCW.

(** An object behind a [BinaryOML*]: one of the classes. *)
Inductive BinaryOML : Type :=
| OfADAGRAD_RDA (m : ADAGRAD_RDA.t)
| OfADAM (m : ADAM.t)
| OfAROW (m : AROW.t)
| OfNHERD (m : NHERD.t)
| OfPA (m : PA.t)
| OfSCW (m : SCW.t).

(** The class of the object. *)
Definition class_of (o : BinaryOML) : algorithm :=
  match o with
  | OfADAGRAD_RDA _ => ALG_ADAGRAD_RDA
  | OfADAM _ => ALG_ADAM
  | OfAROW _ => ALG_AROW
  | OfNHERD _ => ALG_NHERD
  | OfPA _ => ALG_PA
  | OfSCW _ => ALG_SCW
  end.

(** [BinaryOMLCreator]: the owned object. *)
Record BinaryOMLCreator : Type := mk {
  m_pBinaryOML : BinaryOML
}.

Definition FactoryMethod (c : BinaryOMLCreator) : BinaryOML := m_pBinaryOML c.

(** The constructors of the concrete creators: each is
    [BinaryOMLCreator(new ...)]. *)
Definition BinaryADAGRADRDACreator (dim : Z) (eta lambda : R)
    : result BinaryOMLCreator :=
  m ← ADAGRAD_RDA.new dim eta lambda; mret (mk (OfADAGRAD_RDA m)).

(** Modelled from the spec: the text of this creator is
    [BinaryOMLCreator(new ADAM(dim))], but the class of [adam.hpp] does not
    derive from [BinaryOML] and declares no [name()], so the creator is
    written against a revision of ADAM that is not among the sources.  The
    spec lists the ADAM-style variant among the implementations of the
    contract ([update], [predict], [save], [load], [name]).  Its constructor
    is taken from [adam.hpp]. *)
Definition BinaryADAMCreator (dim : Z) : result BinaryOMLCreator :=
  m ← ADAM.new dim; mret (mk (OfADAM m)).

Definition BinaryAROWCreator (dim : Z) (r : R) : result BinaryOMLCreator :=
  m ← AROW.new dim r; mret (mk (OfAROW m)).

Definition BinaryNHERDCreator (dim : Z) (c : R) (diagonal : Z)
    : result BinaryOMLCreator :=
  m ← NHERD.new dim c diagonal; mret (mk (OfNHERD m)).

Definition BinaryPACreator (dim : Z) (c : R) (select : Z)
    : result BinaryOMLCreator :=
  m ← PA.new dim c select; mret (mk (OfPA m)).

(** [BinarySCWCreator(dim, c, eta) : BinaryOMLCreator(new PA(dim, c, eta))]:
    the [double] [eta] is converted to the [int] parameter [select]. *)
Definition BinarySCWCreator (dim : Z) (c eta : R) : result BinaryOMLCreator :=
  m ← PA.new dim c (double_to_int eta); mret (mk (OfPA m)).

(** Modelled from the spec: [name()] of the ADAM the creator is written
    against; the class of [adam.hpp] declares none.  The spec describes
    [name()] as the static identifier of the variant, which for the classes
    of the sources is the identifier of the class. *)
Definition ADAM_name (m : ADAM.t) : string := "ADAM".

(** [name()]: the virtual call on the owned object. *)
Definition object_name (o : BinaryOML) : string :=
  match o with
  | OfADAGRAD_RDA m => ADAGRAD_RDA.name m
  | OfADAM m => ADAM_name m
  | OfAROW m => AROW.name m
  | OfNHERD m => NHERD.name m
  | OfPA m => PA.name m
  | OfSCW m => SCW.name m
  end.

Definition name (c : BinaryOMLCreator) : string :=
  object_name (m_pBinaryOML c).

End Factory.

(** ** The earlier ADAGRAD_RDA ([src/online/adagrad_rda.hpp]) *)

Module Online_ADAGRAD_RDA.

(** [kDim] is an [int] here, and [std::size_t] in [classifier/binary]. *)
Record t : Type := mk {
  kDim : Z;
  kEta : R;
  kLambda : R;
  _timestep : Z;
  _w : VectorXd;
  _h : VectorXd;
  _g : VectorXd
}.

Definition set_timestep (m : t) (timestep : Z) : t :=
  mk (kDim m) (kEta m) (kLambda m) timestep (_w m) (_h m) (_g m).
Definition set_w (m : t) (w : VectorXd) : t :=
  mk (kDim m) (kEta m) (kLambda m) (_timestep m) w (_h m) (_g m).
Definition set_h (m : t) (h : VectorXd) : t :=
  mk (kDim m) (kEta m) (kLambda m) (_timestep m) (_w m) h (_g m).
Definition set_g (m : t) (g : VectorXd) : t :=
  mk (kDim m) (kEta m) (kLambda m) (_timestep m) (_w m) (_h m) g.

Definition calculate_margin (m : t) (x : VectorXd) : result R :=
  dot (_w m) x.

Definition suffer_loss (m : t) (x : VectorXd) (y : Z) : result R :=
  d ← dot (_w m) x;
  mret (std_max 0 (1 - IZR y * d)).

(** The callback of [update]. *)
Definition update_coordinate (label : Z)
    (index : nat) (value : R) (m : t) : result t :=
  let gradiant := IZR (- label) * value in
  gi ← coeff (_g m) index;
  g ← set_coeff (_g m) index (gi + gradiant);
  let m := set_g m g in
  hi ← coeff (_h m) index;
  h ← set_coeff (_h m) index (hi + gradiant * gradiant);
  let m := set_h m h in
  gi ← coeff (_g m) index;
  let sign := if decide (gi >= 0) then 1%Z else (-1)%Z in
  hi ← coeff (_h m) index;
  let eta := kEta m / sqrt hi in
  gi ← coeff (_g m) index;
  let u := Rabs gi / IZR (_timestep m) in
  if decide (u <= kLambda m) then
    w ← set_coeff (_w m) index 0;
    mret (set_w m w)
  else
    w ← set_coeff (_w m) index
          (IZR (- sign) * eta * IZR (_timestep m) * (u - kLambda m));
    mret (set_w m w).

(** [update] returns nothing: the result is the object after the call. *)
Definition update {E : Enumerate} (m : t) (feature : VectorXd) (label : Z)
    : result t :=
  loss ← suffer_loss m feature label;
  if decide (loss <= 0) then mret m
  else
    let m := set_timestep m (size_t_incr (_timestep m)) in
    enumerate feature 0 (update_coordinate label) m.

Definition predict (m : t) (x : VectorXd) : result Z :=
  margin ← calculate_margin m x;
  mret (if decide (margin > 0) then 1%Z else (-1)%Z).

End Online_ADAGRAD_RDA.

(** ** Sequences of updates *)

(** The object after the calls [update(feature, label)] for the examples of
    the list, in order. *)
Fixpoint ADAGRAD_RDA_updates {E : Enumerate} (m : ADAGRAD_RDA.t)
    (examples : list (VectorXd * Z)) : result ADAGRAD_RDA.t :=
  match examples with
  | [] => Ok m
  | (feature, label) :: rest =>
      r ← ADAGRAD_RDA.update m feature label;
      ADAGRAD_RDA_updates r.2 rest
  end.

(** The same, counting the calls that returned [true]. *)
Fixpoint ADAGRAD_RDA_count_updates {E : Enumerate} (m : ADAGRAD_RDA.t)
    (examples : list (VectorXd * Z)) : result (nat * ADAGRAD_RDA.t) :=
  match examples with
  | [] => Ok (0%nat, m)
  | (feature, label) :: rest =>
      r ← ADAGRAD_RDA.update m feature label;
      c ← ADAGRAD_RDA_count_updates r.2 rest;
      mret ((if fst r : bool then S (fst c) else fst c), snd c)
  end.

(** The object of [src/online] with the members of an object of
    [classifier/binary]. *)
Definition to_online (m : ADAGRAD_RDA.t) : Online_ADAGRAD_RDA.t :=
  Online_ADAGRAD_RDA.mk (ADAGRAD_RDA.kDim m) (ADAGRAD_RDA.kEta m)
    (ADAGRAD_RDA.kLambda m) (ADAGRAD_RDA._timestep m)
    (ADAGRAD_RDA._w m) (ADAGRAD_RDA._h m) (ADAGRAD_RDA._g m).

(** The three vectors of the object have size [n]. *)
Definition ADAGRAD_RDA_sized (n : nat) (m : ADAGRAD_RDA.t) : Prop :=
  length (ADAGRAD_RDA._w m) = n
  /\ length (ADAGRAD_RDA._h m) = n
  /\ length (ADAGRAD_RDA._g m) = n.


(** The averaged gradient magnitude of coordinate [i]:
    [u = |g[i]| / timestep]. *)
Definition averaged_magnitude (m : ADAGRAD_RDA.t) (gi : R) : R :=
  Rabs gi / IZR (ADAGRAD_RDA._timestep m).

(** ** Statements of the spec, to compare the code with *)

(** The squared Euclidean norm of a vector. *)
Definition squaredNorm (x : VectorXd) : R := sum_of_products x x.

(** The hinge loss [max(0, 1 - y * margin)]. *)
Definition hinge (y : Z) (margin : R) : R := Rmax 0 (1 - IZR y * margin).

(** The confidence of NHERD in the spec: [sum_i Sigma[i] * x[i]^2]. *)
Fixpoint spec_confidence (covariances x : VectorXd) : R :=
  match covariances, x with
  | ci :: covariances', xi :: x' =>
      ci * xi ^ 2 + spec_confidence covariances' x'
  | _, _ => 0
  end.

(** The step size of PA-0 in the spec: [loss / ||x||^2], and 0 when the norm
    of [x] is 0. *)
Definition spec_tau_PA0 (x : VectorXd) (loss : R) : R :=
  if decide (squaredNorm x = 0) then 0 else loss / squaredNorm x.

(** The step size of PA-II in the spec: [loss / (||x||^2 + 1/(2C))]. *)
Definition spec_tau_PA2 (C : R) (x : VectorXd) (loss : R) : R :=
  loss / (squaredNorm x + 1 / (2 * C)).

(** The weight after an update with one step size [tau] for all
    coordinates: [w[i] + tau * y * x[i]]. *)
Definition spec_step (tau : R) (y : Z) (w x : VectorXd) : VectorXd :=
  zip_with (fun wi xi => wi + tau * IZR y * xi) w x.

(** [prediction] is the sign of [margin]: [+1] exactly when the margin is
    positive, [-1] otherwise. *)
Definition sign_of_margin (margin : R) (prediction : result Z) : Prop :=
  (prediction = Ok 1%Z <-> margin > 0)
  /\ (prediction = Ok (-1)%Z <-> ~ margin > 0).

(** ** Evaluation on closed examples *)

Ltac simplify_Rabs :=
  repeat match goal with
         | |- context [Rabs ?r] =>
             first [ rewrite (Rabs_right r) by lra
                   | rewrite (Rabs_left r) by lra ]
         end.

(** Equality of two [Ok (b, object)] built from closed real expressions. *)
Ltac closed_reals :=
  repeat case_decide; try lra; simplify_Rabs;
  repeat (f_equal; try lra; try (field; lra)).

Ltac run_PA_update :=
  unfold PA.update, PA.suffer_loss, dot; simpl;
  unfold PA.update_coordinate, PA.call_compute_tau, coeff, set_coeff; simpl;
  unfold PA.set_weight, std_max, std_min; simpl.

Ltac run_ADAGRAD_RDA_update :=
  unfold ADAGRAD_RDA.update, ADAGRAD_RDA.suffer_loss, dot; simpl;
  unfold std_max;
  repeat (case_decide; try lra); simpl;
  unfold ADAGRAD_RDA.update_coordinate, coeff, set_coeff; simpl.


(** ** Results of calls: basic facts *)

Lemma bind_Ok_inv {A B : Type} (f : A -> result B) (c : result A) (b : B) :
  (c ≫= f) = Ok b -> exists a, c = Ok a /\ f a = Ok b.
Proof. destruct c as [a|e]; simpl; [eauto | discriminate]. Qed.

Lemma assert_Ok_inv (b : bool) (u : unit) : assert b = Ok u -> b = true.
Proof. by destruct b. Qed.

(** ** Vectors: basic facts *)

Lemma length_Zero (dim : Z) : length (Zero dim) = Z.to_nat dim.
Proof. apply length_replicate. Qed.


Lemma dot_Ok (a b : VectorXd) :
  length a = length b -> dot a b = Ok (sum_of_products a b).
Proof. intros Hlen. unfold dot. by rewrite decide_True. Qed.

Lemma dot_Ok_inv (a b : VectorXd) (d : R) :
  dot a b = Ok d -> length a = length b /\ d = sum_of_products a b.
Proof. unfold dot. case_decide; [|discriminate]. by intros [= <-]. Qed.

Lemma sum_of_products_replicate_0 (n : nat) (x : VectorXd) :
  sum_of_products (replicate n 0) x = 0.
Proof.
  revert x. induction n as [|n IH]; intros [|xi x]; simpl; try reflexivity.
  rewrite IH. lra.
Qed.

Lemma dot_Zero (dim : Z) (x : VectorXd) :
  length x = Z.to_nat dim -> dot (Zero dim) x = Ok 0.
Proof.
  intros Hlen. rewrite dot_Ok by (by rewrite length_Zero).
  unfold Zero. by rewrite sum_of_products_replicate_0.
Qed.

Lemma coeff_Some (v : VectorXd) (i : nat) (r : R) :
  v !! i = Some r -> coeff v i = Ok r.
Proof. unfold coeff. by intros ->. Qed.

Lemma set_coeff_lt (v : VectorXd) (i : nat) (r : R) :
  (i < length v)%nat -> set_coeff v i r = Ok (<[i := r]> v).
Proof. intros Hi. unfold set_coeff. by rewrite decide_True. Qed.

(** [std::max] on reals is [Rmax]. *)
Lemma std_max_Rmax (a b : R) : std_max a b = Rmax a b.
Proof.
  unfold std_max, Rmax. case_decide; destruct (Rle_dec a b); lra.
Qed.

(** The hinge loss vanishes exactly on the examples with margin at least 1. *)
Lemma hinge_nonpositive (y : Z) (margin : R) :
  std_max 0 (1 - IZR y * margin) <= 0 <-> IZR y * margin >= 1.
Proof. unfold std_max. case_decide; split; lra. Qed.

(** ** The loop of [enumerate] *)

(** Loop rule: an invariant [I k], indexed by the number of entries passed. *)
Lemma enumerate_from_invariant {E : Enumerate} {St : Type}
    (I : nat -> St -> Prop) (func : nat -> R -> St -> result St)
    (values : list R) :
  forall (initial : nat) (s : St),
    I initial s ->
    (forall k value s0,
        values !! k = Some value -> I (initial + k)%nat s0 ->
        if visits value
        then exists s1, func (initial + k)%nat value s0 = Ok s1
                        /\ I (S (initial + k)) s1
        else I (S (initial + k)) s0) ->
    exists s', enumerate values initial func s = Ok s'
               /\ I (initial + length values)%nat s'.
Proof.
  induction values as [|value rest IH]; intros initial s HI Hstep; simpl.
  - exists s. split; [done|]. by replace (initial + 0)%nat with initial by lia.
  - pose proof (Hstep 0%nat value s eq_refl) as H0.
    replace (initial + 0)%nat with initial in H0 by lia.
    specialize (H0 HI).
    assert (Hrest : forall s1, I (S initial) s1 ->
              exists s', enumerate rest (S initial) func s1 = Ok s'
                         /\ I (initial + S (length rest))%nat s').
    { intros s1 H1.
      destruct (IH (S initial) s1 H1) as (s' & Hrun & Hend).
      - intros k v s0 Hk Hs0.
        replace (S initial + k)%nat with (initial + S k)%nat in * by lia.
        by apply (Hstep (S k)).
      - exists s'. split; [done|].
        by replace (initial + S (length rest))%nat
          with (S initial + length rest)%nat by lia. }
    destruct (visits value).
    + destruct H0 as (s1 & -> & H1). simpl. by apply Hrest.
    + simpl. by apply Hrest.
Qed.

Lemma enumerate_invariant {E : Enumerate} {St : Type}
    (I : nat -> St -> Prop) (func : nat -> R -> St -> result St)
    (values : list R) (s : St) :
  I 0%nat s ->
  (forall k value s0,
      values !! k = Some value -> I k s0 ->
      if visits value
      then exists s1, func k value s0 = Ok s1 /\ I (S k) s1
      else I (S k) s0) ->
  exists s', enumerate values 0 func s = Ok s' /\ I (length values) s'.
Proof.
  intros H0 Hstep.
  by apply (enumerate_from_invariant I func values 0%nat s).
Qed.

(** An entry that is not visited is zero. *)
Lemma not_visited_zero {E : Enumerate} (value : R) :
  visits value = false -> value = 0.
Proof.
  intros Hv. destruct (decide (value = 0)) as [|Hne]; [done|].
  apply visits_nonzero in Hne. congruence.
Qed.

(** ** predict *)

Lemma ADAGRAD_RDA_new_fields (dim : Z) (eta lambda : R) (m : ADAGRAD_RDA.t) :
  ADAGRAD_RDA.new dim eta lambda = Ok m ->
  m = ADAGRAD_RDA.mk dim eta lambda 0 (Zero dim) (Zero dim) (Zero dim).
Proof.
  unfold ADAGRAD_RDA.new. intros Hnew.
  repeat (apply bind_Ok_inv in Hnew as (? & _ & Hnew)).
  by injection Hnew as <-.
Qed.

Lemma sign_of_margin_intro (margin : R) :
  sign_of_margin margin (Ok (if decide (margin > 0) then 1%Z else (-1)%Z)).
Proof.
  unfold sign_of_margin. case_decide; repeat split; intros; try done; lra.
Qed.

(** C9. In PA, ADAGRAD_RDA, ADAM and NHERD, for every object and every
    vector [x] of the size of its weight (or mean) vector, the margin is the
    dot product [sum_i w[i] * x[i]] of that vector with [x], and
    [predict(x)] returns +1 if and only if this dot product is strictly
    positive, and -1 otherwise; on a freshly constructed object the dot
    product with every vector of the object's dimension is exactly 0 and
    [predict] returns -1. *)
Theorem predict_is_sign_of_margin :
  (forall (m : PA.t) x,
      length (PA._weight m) = length x ->
      PA.compute_margin m x = Ok (sum_of_products (PA._weight m) x)
      /\ sign_of_margin (sum_of_products (PA._weight m) x) (PA.predict m x))
  /\ (forall (m : ADAGRAD_RDA.t) x,
      length (ADAGRAD_RDA._w m) = length x ->
      ADAGRAD_RDA.calculate_margin m x
      = Ok (sum_of_products (ADAGRAD_RDA._w m) x)
      /\ sign_of_margin (sum_of_products (ADAGRAD_RDA._w m) x)
           (ADAGRAD_RDA.predict m x))
  /\ (forall (a : ADAM.t) x,
      length (ADAM._w a) = length x ->
      ADAM.calculate_margin a x = Ok (sum_of_products (ADAM._w a) x)
      /\ sign_of_margin (sum_of_products (ADAM._w a) x) (ADAM.predict a x))
  /\ (forall (m : NHERD.t) x,
      length (NHERD._means m) = length x ->
      NHERD.compute_margin m x = Ok (sum_of_products (NHERD._means m) x)
      /\ sign_of_margin (sum_of_products (NHERD._means m) x)
           (NHERD.predict m x))
  /\ (forall dim C select m x,
      PA.new dim C select = Ok m -> length x = Z.to_nat dim ->
      sum_of_products (PA._weight m) x = 0
      /\ PA.predict m x = Ok (-1)%Z)
  /\ (forall dim eta lambda m x,
      ADAGRAD_RDA.new dim eta lambda = Ok m -> length x = Z.to_nat dim ->
      sum_of_products (ADAGRAD_RDA._w m) x = 0
      /\ ADAGRAD_RDA.predict m x = Ok (-1)%Z)
  /\ (forall dim a x,
      ADAM.new dim = Ok a -> length x = Z.to_nat dim ->
      sum_of_products (ADAM._w a) x = 0
      /\ ADAM.predict a x = Ok (-1)%Z)
  /\ (forall dim C diagonal m x,
      NHERD.new dim C diagonal = Ok m -> length x = Z.to_nat dim ->
      sum_of_products (NHERD._means m) x = 0
      /\ NHERD.predict m x = Ok (-1)%Z).
Proof.
  repeat apply conj.
  - intros m x Hlen. unfold PA.predict, PA.compute_margin.
    rewrite dot_Ok by done. split; [done|]. apply sign_of_margin_intro.
  - intros m x Hlen. unfold ADAGRAD_RDA.predict, ADAGRAD_RDA.calculate_margin.
    rewrite dot_Ok by done. split; [done|]. apply sign_of_margin_intro.
  - intros a x Hlen. unfold ADAM.predict, ADAM.calculate_margin.
    rewrite dot_Ok by done. split; [done|]. apply sign_of_margin_intro.
  - intros m x Hlen. unfold NHERD.predict, NHERD.compute_margin.
    rewrite dot_Ok by done. split; [done|]. apply sign_of_margin_intro.
  - intros dim C select m x [= <-] Hlen.
    unfold PA.predict, PA.compute_margin. cbn [PA._weight].
    split; [apply sum_of_products_replicate_0|].
    rewrite dot_Zero by done. simpl. rewrite decide_False by lra. done.
  - intros dim eta lambda m x Hnew Hlen.
    apply ADAGRAD_RDA_new_fields in Hnew as ->.
    unfold ADAGRAD_RDA.predict, ADAGRAD_RDA.calculate_margin.
    cbn [ADAGRAD_RDA._w].
    split; [apply sum_of_products_replicate_0|].
    rewrite dot_Zero by done. simpl. rewrite decide_False by lra. done.
  - intros dim a x Hnew Hlen.
    unfold ADAM.new in Hnew.
    apply bind_Ok_inv in Hnew as (? & _ & Hnew).
    injection Hnew as <-.
    unfold ADAM.predict, ADAM.calculate_margin. cbn [ADAM._w].
    split; [apply sum_of_products_replicate_0|].
    rewrite dot_Zero by done. simpl. rewrite decide_False by lra. done.
  - intros dim C diagonal m x [= <-] Hlen.
    unfold NHERD.predict, NHERD.compute_margin. cbn [NHERD._means].
    split; [apply sum_of_products_replicate_0|].
    rewrite dot_Zero by done. simpl. rewrite decide_False by lra. done.
Qed.

Lemma predict_is_sign_of_margin_witness :
  sign_of_margin (sum_of_products [1; 0] [2; 3])
    (PA.predict (PA.mk 2 1 0 [1; 0] (Some PA.tau_case0)) [2; 3])
  /\ PA.predict (PA.mk 2 1 0 [1; 0] (Some PA.tau_case0)) [2; 3] = Ok 1%Z
  /\ PA.predict (PA.mk 2 1 0 (Zero 2) (Some PA.tau_case0)) [0; 0] = Ok (-1)%Z.
Proof.
  split_and!.
  - apply (proj1 predict_is_sign_of_margin
             (PA.mk 2 1 0 [1; 0] (Some PA.tau_case0)) [2; 3] eq_refl).
  - apply (proj1 predict_is_sign_of_margin
             (PA.mk 2 1 0 [1; 0] (Some PA.tau_case0)) [2; 3] eq_refl).
    simpl. lra.
  - apply (proj1 (proj2 (proj2 (proj2 (proj2 predict_is_sign_of_margin))))
             2%Z 1 0%Z (PA.mk 2 1 0 (Zero 2) (Some PA.tau_case0)) [0; 0]);
      reflexivity.
Defined.

(** ** The skipped update of ADAGRAD_RDA and ADAM *)

(** C6. In ADAGRAD_RDA and in ADAM, when the hinge loss of the example
    [max(0, 1 - y * (w . x))] is not positive, [update] returns [false] and
    the object after the call is the object before it: [_w], [_g] or [_m],
    [_h] or [_v] and [_timestep] keep their values.  The loss is not positive
    exactly when [y * (w . x) >= 1]. *)
Theorem update_skips_on_zero_loss {E : Enumerate} :
  (forall (m : ADAGRAD_RDA.t) x y loss,
      ADAGRAD_RDA.suffer_loss m x y = Ok loss -> loss <= 0 ->
      ADAGRAD_RDA.update m x y = Ok (false, m))
  /\ (forall (a : ADAM.t) x y loss,
      ADAM.suffer_loss a x y = Ok loss -> loss <= 0 ->
      ADAM.update a x y = Ok (false, a))
  /\ (forall (m : ADAGRAD_RDA.t) x y margin,
      ADAGRAD_RDA.calculate_margin m x = Ok margin ->
      exists loss, ADAGRAD_RDA.suffer_loss m x y = Ok loss
                   /\ loss = hinge y margin
                   /\ (loss <= 0 <-> IZR y * margin >= 1))
  /\ (forall (a : ADAM.t) x y margin,
      ADAM.calculate_margin a x = Ok margin ->
      exists loss, ADAM.suffer_loss a x y = Ok loss
                   /\ loss = hinge y margin
                   /\ (loss <= 0 <-> IZR y * margin >= 1)).
Proof.
  repeat apply conj.
  - intros m x y loss Hloss Hle. unfold ADAGRAD_RDA.update.
    rewrite Hloss. simpl. by rewrite decide_True.
  - intros a x y loss Hloss Hle. unfold ADAM.update.
    rewrite Hloss. simpl. by rewrite decide_True.
  - intros m x y margin Hm.
    unfold ADAGRAD_RDA.suffer_loss, ADAGRAD_RDA.calculate_margin in *.
    rewrite Hm. simpl. eexists. split; [reflexivity|]. split.
    + apply std_max_Rmax.
    + apply hinge_nonpositive.
  - intros a x y margin Hm.
    unfold ADAM.suffer_loss, ADAM.calculate_margin in *.
    rewrite Hm. simpl. eexists. split; [reflexivity|]. split.
    + apply std_max_Rmax.
    + apply hinge_nonpositive.
Qed.

Lemma update_skips_on_zero_loss_witness :
  ADAGRAD_RDA.update (E := visit_all)
    (ADAGRAD_RDA.mk 2 1 1 3 [2; 0] [1; 1] [-1; 0]) [1; 5] 1
  = Ok (false, ADAGRAD_RDA.mk 2 1 1 3 [2; 0] [1; 1] [-1; 0])
  /\ ADAM.update (E := visit_all)
       (ADAM.mk 2 3 [2; 0] [1; 1] [1; 0]) [1; 5] 1
     = Ok (false, ADAM.mk 2 3 [2; 0] [1; 1] [1; 0]).
Proof.
  split.
  - apply (proj1 (update_skips_on_zero_loss (E := visit_all))
             _ _ _ (std_max 0 (1 - IZR 1 * (2 * 1 + (0 * 5 + 0))))).
    + reflexivity.
    + unfold std_max. case_decide; lra.
  - apply (proj1 (proj2 (update_skips_on_zero_loss (E := visit_all)))
             _ _ _ (std_max 0 (1 - IZR 1 * (2 * 1 + (0 * 5 + 0))))).
    + reflexivity.
    + unfold std_max. case_decide; lra.
Defined.

(** ** Construction *)

(** C5 on the code: the constructors of PA and NHERD return an object for
    every argument.  [PA(0, -1, 7)] and [NHERD(0, -1, 9)] are constructed,
    with an empty formula object, and answer [predict]; the unrecognized
    selector is met only by a later [update], at the first entry the loop
    visits.  The constructors of ADAGRAD_RDA and ADAM stop on the same
    arguments. *)
Theorem PA_and_NHERD_constructors_never_fail :
  (forall dim C select, exists m, PA.new dim C select = Ok m)
  /\ (forall dim C diagonal, exists m, NHERD.new dim C diagonal = Ok m)
  /\ PA.new 0 (-1) 7 = Ok (PA.mk 0 (-1) 7 [] None)
  /\ PA.predict (PA.mk 0 (-1) 7 [] None) [] = Ok (-1)%Z
  /\ NHERD.new 0 (-1) 9 = Ok (NHERD.mk 0 (-1) 9 [] [] None)
  /\ NHERD.predict (NHERD.mk 0 (-1) 9 [] [] None) [] = Ok (-1)%Z
  /\ PA.new 2 1 7 = Ok (PA.mk 2 1 7 [0; 0] None)
  /\ PA.update (E := visit_all) (PA.mk 2 1 7 [0; 0] None) [1; 0] 1
     = Err BadFunctionCall
  /\ ADAGRAD_RDA.new 0 1 1 = Err AssertionFailed
  /\ ADAGRAD_RDA.new 2 (-1) 1 = Err AssertionFailed
  /\ ADAGRAD_RDA.new 2 1 0 = Err AssertionFailed
  /\ ADAM.new 0 = Err AssertionFailed.
Proof.
  repeat apply conj; try reflexivity.
  - intros dim C select. eexists. reflexivity.
  - intros dim C diagonal. eexists. reflexivity.
  - unfold PA.predict, PA.compute_margin, dot. simpl.
    by rewrite decide_False by lra.
  - unfold NHERD.predict, NHERD.compute_margin, dot. simpl.
    by rewrite decide_False by lra.
  - unfold ADAGRAD_RDA.new. simpl.
    rewrite (bool_decide_eq_false_2 (-1 > 0)) by lra. reflexivity.
  - unfold ADAGRAD_RDA.new. simpl.
    rewrite (bool_decide_eq_true_2 (1 > 0)) by lra. simpl.
    rewrite (bool_decide_eq_false_2 (0 > 0)) by lra. reflexivity.
Qed.

(** ** The creators *)

Lemma double_to_int_IZR (z : Z) : double_to_int (IZR z) = z.
Proof.
  unfold double_to_int. case_decide.
  - symmetry. apply Int_part_spec. lra.
  - rewrite <- opp_IZR. rewrite <- (Int_part_spec (IZR (- z)) (- z)%Z); [lia|].
    lra.
Qed.

(** C4 on the code: [BinarySCWCreator(dim, c, eta)] owns a PA object, for
    every argument: never an SCW object.  Each of the five other creators
    owns an object of the class it is declared for whenever the constructor
    of that class returns. *)
Theorem BinarySCWCreator_constructs_PA :
  (forall dim c eta, exists m,
      Factory.BinarySCWCreator dim c eta = Ok (Factory.mk (Factory.OfPA m))
      /\ PA.kSelect m = double_to_int eta
      /\ Factory.class_of (Factory.OfPA m) = Factory.ALG_PA
      /\ Factory.class_of (Factory.OfPA m) <> Factory.ALG_SCW
      /\ Factory.name (Factory.mk (Factory.OfPA m)) = "PA")
  /\ Factory.BinarySCWCreator 2 1 1
     = Ok (Factory.mk (Factory.OfPA (PA.mk 2 1 1 [0; 0] (Some PA.tau_case1))))
  /\ (forall dim eta lambda cr,
      Factory.BinaryADAGRADRDACreator dim eta lambda = Ok cr ->
      Factory.class_of (Factory.FactoryMethod cr) = Factory.ALG_ADAGRAD_RDA)
  /\ (forall dim cr,
      Factory.BinaryADAMCreator dim = Ok cr ->
      Factory.class_of (Factory.FactoryMethod cr) = Factory.ALG_ADAM)
  /\ (forall dim r cr,
      Factory.BinaryAROWCreator dim r = Ok cr ->
      Factory.class_of (Factory.FactoryMethod cr) = Factory.ALG_AROW)
  /\ (forall dim c diagonal cr,
      Factory.BinaryNHERDCreator dim c diagonal = Ok cr ->
      Factory.class_of (Factory.FactoryMethod cr) = Factory.ALG_NHERD)
  /\ (forall dim c select cr,
      Factory.BinaryPACreator dim c select = Ok cr ->
      Factory.class_of (Factory.FactoryMethod cr) = Factory.ALG_PA).
Proof.
  repeat apply conj.
  - intros dim c eta. eexists. repeat split; done.
  - unfold Factory.BinarySCWCreator. by rewrite (double_to_int_IZR 1).
  - intros dim eta lambda cr Hcr. unfold Factory.BinaryADAGRADRDACreator in Hcr.
    apply bind_Ok_inv in Hcr as (m & _ & [= <-]). reflexivity.
  - intros dim cr Hcr. unfold Factory.BinaryADAMCreator in Hcr.
    apply bind_Ok_inv in Hcr as (m & _ & [= <-]). reflexivity.
  - intros dim r cr [= <-]. reflexivity.
  - intros dim c diagonal cr [= <-]. reflexivity.
  - intros dim c select cr [= <-]. reflexivity.
Qed.

Lemma BinarySCWCreator_constructs_PA_witness :
  Factory.class_of
    (Factory.FactoryMethod
       (Factory.mk (Factory.OfADAGRAD_RDA
                      (ADAGRAD_RDA.mk 2 1 1 0 [0; 0] [0; 0] [0; 0]))))
  = Factory.ALG_ADAGRAD_RDA.
Proof.
  apply (proj1 (proj2 (proj2 BinarySCWCreator_constructs_PA)) 2%Z 1 1).
  unfold Factory.BinaryADAGRADRDACreator, ADAGRAD_RDA.new. simpl.
  rewrite (bool_decide_eq_true_2 (1 > 0)) by lra. reflexivity.
Defined.

(** ** save and load of PA *)

(** A stream on the name just written opens, and reads what was written. *)
Lemma read_after_write {F : FileSystem} {A : Type} (filename : string)
    (contents : A) (files files' : gmap string A) :
  write_file filename contents files = Ok files' ->
  read_file filename files' = Ok contents.
Proof.
  unfold write_file, read_file.
  destruct (file_of filename) as [file|]; [|done].
  intros [= <-]. cbn. by rewrite lookup_insert_eq.
Qed.

(** [load] replaces the weight and the three constants by the archived
    ones, and keeps the formula object of the loading instance. *)
Lemma PA_load_after_save {F : FileSystem} (saved loader : PA.t)
    (filename : string) (files files' : gmap string PA.archive) :
  PA.save saved filename files = Ok files' ->
  PA.load loader filename files'
  = Ok (PA.mk (PA.kDim saved) (PA.kC saved) (PA.kSelect saved)
          (PA._weight saved) (PA._compute_tau loader)).
Proof.
  intros Hsave. unfold PA.load, PA.save in *.
  by rewrite (read_after_write _ _ _ _ Hsave).
Qed.

(** When the loading instance was constructed with the selector of the saved
    one, the loaded object is the saved object. *)
Lemma PA_load_after_save_same_formula {F : FileSystem} (saved loader : PA.t)
    (filename : string) (files files' : gmap string PA.archive) :
  PA._compute_tau loader = PA._compute_tau saved ->
  PA.save saved filename files = Ok files' ->
  PA.load loader filename files' = Ok saved.
Proof.
  intros Htau Hsave. rewrite (PA_load_after_save _ _ _ _ _ Hsave), Htau.
  by destruct saved.
Qed.

(** [predict] reads the weight only: it agrees after [load]. *)
Lemma PA_predict_after_load {F : FileSystem} (saved loader loaded : PA.t)
    (filename : string) (files files' : gmap string PA.archive)
    (x : VectorXd) :
  PA.save saved filename files = Ok files' ->
  PA.load loader filename files' = Ok loaded ->
  PA.predict loaded x = PA.predict saved x.
Proof.
  intros Hsave Hload.
  rewrite (PA_load_after_save _ _ _ _ _ Hsave) in Hload.
  by injection Hload as <-.
Qed.

(** C1 on the code: a PA-0 model saved and loaded into an instance
    constructed as [PA(2, 0.5)] (selector 2 by default) has the archived
    selector 0 in [kSelect] and still the PA-II formula in [_compute_tau]:
    on the example [([1, 0], +1)] the saved model moves its weight to
    [[1, 0]], the loaded one to [[0.8, 0]]. *)
Theorem PA_load_keeps_constructor_formula :
  let saved := PA.mk 2 (1 / 2) 0 [0; 0] (Some PA.tau_case0) in
  let loader := PA.mk 2 (1 / 2) 2 [0; 0] (Some PA.tau_case2) in
  let loaded := PA.mk 2 (1 / 2) 0 [0; 0] (Some PA.tau_case2) in
  PA.new 2 (1 / 2) 0 = Ok saved
  /\ PA.new_default 2 (1 / 2) = Ok loader
  /\ PA.save (F := plain_names) saved "model" ∅
     = Ok {["model" := PA.save_archive saved]}
  /\ PA.load (F := plain_names) loader "model"
       {["model" := PA.save_archive saved]} = Ok loaded
  /\ PA.kSelect loaded = PA.kSelect saved
  /\ PA.update (E := visit_all) saved [1; 0] 1
     = Ok (true, PA.set_weight saved [1; 0])
  /\ PA.update (E := visit_all) loaded [1; 0] 1
     = Ok (true, PA.set_weight loaded [4 / 5; 0])
  /\ PA.set_weight saved [1; 0] <> PA.set_weight loaded [4 / 5; 0]
  /\ PA._weight (PA.set_weight saved [1; 0])
     <> PA._weight (PA.set_weight loaded [4 / 5; 0]).
Proof.
  intros saved loader loaded. subst saved loader loaded.
  repeat apply conj; try reflexivity.
  - run_PA_update. closed_reals.
  - run_PA_update. closed_reals.
  - intros Heq. injection Heq. lra.
  - intros Heq. injection Heq. lra.
Qed.

(** ** update of PA *)

(** What one [update] does to the object: the constants and the formula
    object are kept, and coordinate [i] of the weight moves by
    [tau_i * label * x[i]], where [tau_i] is the value of the stored lambda
    on [(x[i], loss)]. *)
Lemma PA_update_coordinates {E : Enumerate} (m : PA.t) (f : PA.tau_lambda)
    (x : VectorXd) (y : Z) :
  PA._compute_tau m = Some f ->
  length (PA._weight m) = length x ->
  exists loss m',
    PA.suffer_loss m x y = Ok loss
    /\ loss = hinge y (sum_of_products (PA._weight m) x)
    /\ PA.update m x y = Ok (true, m')
    /\ PA.kDim m' = PA.kDim m /\ PA.kC m' = PA.kC m
    /\ PA.kSelect m' = PA.kSelect m /\ PA._compute_tau m' = Some f
    /\ length (PA._weight m') = length (PA._weight m)
    /\ forall i wi xi,
        PA._weight m !! i = Some wi -> x !! i = Some xi ->
        PA._weight m' !! i
        = Some (wi + PA.tau_body (PA.kC m) f xi loss * IZR y * xi).
Proof.
  intros Hf Hlen.
  set (loss := std_max 0 (1 - IZR y * sum_of_products (PA._weight m) x)).
  assert (Hloss : PA.suffer_loss m x y = Ok loss).
  { unfold PA.suffer_loss. by rewrite dot_Ok. }
  set (I := fun (k : nat) (mk : PA.t) =>
    PA.kDim mk = PA.kDim m /\ PA.kC mk = PA.kC m
    /\ PA.kSelect mk = PA.kSelect m /\ PA._compute_tau mk = Some f
    /\ length (PA._weight mk) = length (PA._weight m)
    /\ forall i wi xi,
        PA._weight m !! i = Some wi -> x !! i = Some xi ->
        PA._weight mk !! i
        = Some (if decide (i < k)%nat
                then wi + PA.tau_body (PA.kC m) f xi loss * IZR y * xi
                else wi)).
  destruct (enumerate_invariant I (PA.update_coordinate loss y) x m)
    as (m' & Hrun & Hend).
  - repeat split; try done;
      intros i wi xi Hwi _; by rewrite decide_False by lia.
  - intros k value mk Hk (HkDim & HkC & HkSel & Htau & Hlenk & Hcells).
    assert (Hklt : (k < length (PA._weight m))%nat).
    { rewrite Hlen. by eapply lookup_lt_Some. }
    destruct (lookup_lt_is_Some_2 (PA._weight m) k Hklt) as [wk Hwk].
    pose proof (Hcells k wk value Hwk Hk) as Hcur.
    rewrite decide_False in Hcur by lia.
    destruct (visits value) eqn:Hvisit.
    + exists (PA.set_weight mk
                (<[k := wk + PA.tau_body (PA.kC mk) f value loss
                             * IZR y * value]> (PA._weight mk))).
      split.
      * unfold PA.update_coordinate, PA.call_compute_tau.
        rewrite Htau. simpl. rewrite (coeff_Some _ _ _ Hcur). simpl.
        rewrite set_coeff_lt by lia. reflexivity.
      * unfold I, PA.set_weight. cbn [PA.kDim PA.kC PA.kSelect PA._weight
                                       PA._compute_tau].
        repeat split; try done; try (by rewrite length_insert).
        intros i wi xi Hwi Hxi.
        destruct (decide (i = k)) as [->|Hne].
        { rewrite list_lookup_insert_eq by lia.
          rewrite decide_True by lia.
          rewrite Hwk in Hwi. rewrite Hk in Hxi.
          injection Hwi as <-. injection Hxi as <-. by rewrite HkC. }
        rewrite list_lookup_insert_ne by done.
        rewrite (Hcells i wi xi Hwi Hxi).
        destruct (decide (i < k)%nat).
        { by rewrite decide_True by lia. }
        by rewrite decide_False by lia.
    + apply not_visited_zero in Hvisit. subst value.
      unfold I. repeat split; try done.
      intros i wi xi Hwi Hxi.
      rewrite (Hcells i wi xi Hwi Hxi).
      destruct (decide (i = k)) as [->|Hne].
      { rewrite decide_False by lia. rewrite decide_True by lia.
        rewrite Hk in Hxi. injection Hxi as <-. f_equal. lra. }
      destruct (decide (i < k)%nat).
      { by rewrite decide_True by lia. }
      by rewrite decide_False by lia.
  - destruct Hend as (HkDim & HkC & HkSel & Htau & Hlen' & Hcells).
    exists loss, m'. repeat split; try done.
    + apply std_max_Rmax.
    + unfold PA.update. rewrite Hloss. simpl. rewrite Hrun. reflexivity.
    + intros i wi xi Hwi Hxi. rewrite (Hcells i wi xi Hwi Hxi).
      rewrite decide_True; [done|]. by eapply lookup_lt_Some.
Qed.

(** C2, as the code has it.  In PA-0 one [update] returns [true] and adds
    [tau_i * y * x[i]] to every coordinate [i] of the weight, where the step
    size [tau_i] is computed for each coordinate from that coordinate alone:
    [tau_i] is the hinge loss divided by [x[i]^2], and 0 when [x[i] = 0].
    Nothing else of the object changes. *)
Theorem PA0_update_per_coordinate {E : Enumerate} (m : PA.t)
    (x : VectorXd) (y : Z) :
  PA._compute_tau m = Some PA.tau_case0 ->
  length (PA._weight m) = length x ->
  let loss := hinge y (sum_of_products (PA._weight m) x) in
  exists m',
    PA.update m x y = Ok (true, m')
    /\ PA.suffer_loss m x y = Ok loss
    /\ m' = PA.set_weight m (PA._weight m')
    /\ length (PA._weight m') = length (PA._weight m)
    /\ forall i wi xi,
        PA._weight m !! i = Some wi -> x !! i = Some xi ->
        let tau_i := if decide (xi = 0) then 0 else loss / xi ^ 2 in
        PA._weight m' !! i = Some (wi + tau_i * IZR y * xi).
Proof.
  intros Hf Hlen loss.
  destruct (PA_update_coordinates m PA.tau_case0 x y Hf Hlen)
    as (loss' & m' & Hloss & -> & Hup & HkDim & HkC & HkSel & Htau & Hlen'
        & Hcells).
  exists m'. repeat split; try done.
  - destruct m, m'. unfold PA.set_weight. simpl in *. congruence.
  - intros i wi xi Hwi Hxi. simpl.
    rewrite (Hcells i wi xi Hwi Hxi). unfold PA.tau_body.
    by rewrite pow2_abs.
Qed.

Lemma PA0_update_per_coordinate_witness :
  exists m',
    PA.update (E := visit_all) (PA.mk 2 1 0 [0; 0] (Some PA.tau_case0))
      [1; 2] 1 = Ok (true, m')
    /\ PA._weight m' !! 1%nat
       = Some (0 + (hinge 1 (sum_of_products [0; 0] [1; 2]) / 2 ^ 2)
                   * IZR 1 * 2).
Proof.
  destruct (PA0_update_per_coordinate (E := visit_all)
              (PA.mk 2 1 0 [0; 0] (Some PA.tau_case0)) [1; 2] 1
              eq_refl eq_refl)
    as (m' & Hup & _ & _ & _ & Hcells).
  exists m'. split; [exact Hup|].
  specialize (Hcells 1%nat 0 2 eq_refl eq_refl). simpl in Hcells.
  rewrite decide_False in Hcells by lra. exact Hcells.
Defined.

(** C2 as stated fails on [x = [1, 2]], [y = +1], from the zero weight: the
    code moves the weight to [[1, 1/2]] (a step size 1 at coordinate 0 and
    1/4 at coordinate 1); a single [tau = loss / ||x||^2 = 1/5] would move it
    to [[1/5, 2/5]]. *)
Lemma PA0_single_tau_counterexample :
  let m := PA.mk 2 1 0 [0; 0] (Some PA.tau_case0) in
  let x := [1; 2] in
  let loss := hinge 1 (sum_of_products (PA._weight m) x) in
  PA.update (E := visit_all) m x 1 = Ok (true, PA.set_weight m [1; 1 / 2])
  /\ spec_tau_PA0 x loss = 1 / 5
  /\ spec_step (spec_tau_PA0 x loss) 1 (PA._weight m) x = [1 / 5; 2 / 5]
  /\ PA._weight (PA.set_weight m [1; 1 / 2])
     <> spec_step (spec_tau_PA0 x loss) 1 (PA._weight m) x.
Proof.
  intros m x loss. subst m x loss.
  assert (Hloss : hinge 1 (sum_of_products [0; 0] [1; 2]) = 1).
  { unfold hinge, Rmax. simpl. destruct (Rle_dec _ _); lra. }
  assert (Htau : spec_tau_PA0 [1; 2] 1 = 1 / 5).
  { unfold spec_tau_PA0, squaredNorm. simpl. case_decide; [lra|]. field. }
  assert (Hstep : spec_step (1 / 5) 1 [0; 0] [1; 2] = [1 / 5; 2 / 5]).
  { unfold spec_step. simpl. repeat (f_equal; try lra). }
  cbn [PA._weight PA.set_weight]. rewrite Hloss, Htau, Hstep.
  repeat apply conj; try reflexivity.
  - run_PA_update. closed_reals.
  - intros Heq. injection Heq. lra.
Qed.

(** C3, as the code has it.  In PA-II with [C > 0] the step size applied by
    [update] at coordinate [i] is the hinge loss divided by [x[i]^2 + C/2]
    (the code writes the second term [1.0 / 2 * kC]), a positive
    denominator, computed per coordinate; in particular with [C = 0.5],
    [x = [1, 0]], [y = +1] and the zero weight the step size at the non-zero
    coordinate is [1 / (1 + 0.25) = 0.8] and the resulting weight is
    [0.8 * y * x = [0.8, 0]]. *)
Theorem PA2_update_per_coordinate {E : Enumerate} (m : PA.t)
    (x : VectorXd) (y : Z) :
  PA._compute_tau m = Some PA.tau_case2 ->
  length (PA._weight m) = length x ->
  0 < PA.kC m ->
  let loss := hinge y (sum_of_products (PA._weight m) x) in
  (exists m',
      PA.update m x y = Ok (true, m')
      /\ PA.suffer_loss m x y = Ok loss
      /\ m' = PA.set_weight m (PA._weight m')
      /\ length (PA._weight m') = length (PA._weight m)
      /\ forall i wi xi,
          PA._weight m !! i = Some wi -> x !! i = Some xi ->
          let tau_i := loss / (xi ^ 2 + PA.kC m / 2) in
          0 < xi ^ 2 + PA.kC m / 2
          /\ PA.call_compute_tau m xi loss = Ok tau_i
          /\ PA._weight m' !! i = Some (wi + tau_i * IZR y * xi))
  /\ (let m0 := PA.mk 2 (1 / 2) 2 [0; 0] (Some PA.tau_case2) in
      PA.new 2 (1 / 2) 2 = Ok m0
      /\ PA.suffer_loss m0 [1; 0] 1 = Ok 1
      /\ PA.call_compute_tau m0 1 1 = Ok (4 / 5)
      /\ PA.update m0 [1; 0] 1 = Ok (true, PA.set_weight m0 [4 / 5; 0])
      /\ spec_step (4 / 5) 1 [0; 0] [1; 0] = [4 / 5; 0]).
Proof.
  intros Hf Hlen HC loss. split.
  - destruct (PA_update_coordinates m PA.tau_case2 x y Hf Hlen)
      as (loss' & m' & Hloss & -> & Hup & HkDim & HkC & HkSel & Htau & Hlen'
          & Hcells).
    exists m'. split_and!; try done.
    + destruct m, m'. unfold PA.set_weight. simpl in *. congruence.
    + intros i wi xi Hwi Hxi. cbv zeta.
      assert (Hform : PA.tau_body (PA.kC m) PA.tau_case2 xi loss
                      = loss / (xi ^ 2 + PA.kC m / 2)).
      { unfold PA.tau_body. rewrite pow2_abs.
        by replace (1 / 2 * PA.kC m) with (PA.kC m / 2) by lra. }
      split_and!.
      * pose proof (pow2_ge_0 xi). lra.
      * unfold PA.call_compute_tau. rewrite Hf. cbv beta iota.
        by rewrite Hform.
      * rewrite (Hcells i wi xi Hwi Hxi). fold loss. by rewrite Hform.
  - assert (Hx : visits 1 = true) by (apply visits_nonzero; lra).
    repeat apply conj; try reflexivity.
    + unfold PA.suffer_loss, dot, std_max. simpl. closed_reals.
    + unfold PA.call_compute_tau, PA.tau_body. simpl. closed_reals.
    + run_PA_update. rewrite Hx. simpl.
      destruct (visits 0); simpl; closed_reals.
    + unfold spec_step. simpl. repeat (f_equal; try lra).
Qed.

Lemma PA2_update_per_coordinate_witness :
  exists m',
    PA.update (E := visit_all) (PA.mk 2 1 2 [0; 0] (Some PA.tau_case2))
      [1; 2] 1 = Ok (true, m')
    /\ PA._weight m' !! 1%nat
       = Some (0 + (hinge 1 (sum_of_products [0; 0] [1; 2]) / (2 ^ 2 + 1 / 2))
                   * IZR 1 * 2).
Proof.
  destruct (proj1 (PA2_update_per_coordinate (E := visit_all)
                     (PA.mk 2 1 2 [0; 0] (Some PA.tau_case2)) [1; 2] 1
                     eq_refl eq_refl ltac:(simpl; lra)))
    as (m' & Hup & _ & _ & _ & Hcells).
  exists m'. split; [exact Hup|].
  exact (proj2 (proj2 (Hcells 1%nat 0 2 eq_refl eq_refl))).
Defined.

(** C3 as stated fails on its own example: with [C = 0.5], [x = [1, 0]],
    [y = +1] and the zero weight, the formula [loss / (||x||^2 + 1/(2C))]
    gives [1 / (1 + 1) = 0.5] and the weight [[0.5, 0]], while the code
    computes 0.8 and the weight [[0.8, 0]].  With [C = 1], where
    [1/(2C) = C/2], and [x = [1, 2]], the formula gives one step size
    [2/11] and the weight [[2/11, 4/11]], while the code applies [2/3] and
    [2/9] and yields [[2/3, 4/9]]. *)
Lemma PA2_formula_counterexample :
  (let m := PA.mk 2 (1 / 2) 2 [0; 0] (Some PA.tau_case2) in
   let x := [1; 0] in
   let loss := hinge 1 (sum_of_products (PA._weight m) x) in
   PA.update (E := visit_all) m x 1 = Ok (true, PA.set_weight m [4 / 5; 0])
   /\ spec_tau_PA2 (PA.kC m) x loss = 1 / 2
   /\ spec_step (spec_tau_PA2 (PA.kC m) x loss) 1 (PA._weight m) x = [1 / 2; 0]
   /\ PA._weight (PA.set_weight m [4 / 5; 0])
      <> spec_step (spec_tau_PA2 (PA.kC m) x loss) 1 (PA._weight m) x)
  /\ (let m := PA.mk 2 1 2 [0; 0] (Some PA.tau_case2) in
      let x := [1; 2] in
      let loss := hinge 1 (sum_of_products (PA._weight m) x) in
      PA.update (E := visit_all) m x 1
      = Ok (true, PA.set_weight m [2 / 3; 4 / 9])
      /\ spec_tau_PA2 (PA.kC m) x loss = 2 / 11
      /\ spec_step (spec_tau_PA2 (PA.kC m) x loss) 1 (PA._weight m) x
         = [2 / 11; 4 / 11]
      /\ PA._weight (PA.set_weight m [2 / 3; 4 / 9])
         <> spec_step (spec_tau_PA2 (PA.kC m) x loss) 1 (PA._weight m) x).
Proof.
  assert (Hloss : forall x0 x1, hinge 1 (sum_of_products [0; 0] [x0; x1]) = 1).
  { intros x0 x1. unfold hinge, Rmax. simpl. destruct (Rle_dec _ _); lra. }
  split; cbn zeta; cbn [PA._weight PA.set_weight PA.kC]; rewrite Hloss.
  - assert (Htau : spec_tau_PA2 (1 / 2) [1; 0] 1 = 1 / 2).
    { unfold spec_tau_PA2, squaredNorm. simpl. field. }
    rewrite Htau.
    assert (Hstep : spec_step (1 / 2) 1 [0; 0] [1; 0] = [1 / 2; 0]).
    { unfold spec_step. simpl. repeat (f_equal; try lra). }
    rewrite Hstep.
    repeat apply conj; try reflexivity.
    + run_PA_update. closed_reals.
    + intros Heq. injection Heq. lra.
  - assert (Htau : spec_tau_PA2 1 [1; 2] 1 = 2 / 11).
    { unfold spec_tau_PA2, squaredNorm. simpl. field. }
    rewrite Htau.
    assert (Hstep : spec_step (2 / 11) 1 [0; 0] [1; 2] = [2 / 11; 4 / 11]).
    { unfold spec_step. simpl. repeat (f_equal; try lra). }
    rewrite Hstep.
    repeat apply conj; try reflexivity.
    + run_PA_update. closed_reals.
    + intros Heq. injection Heq. lra.
Qed.

(** ** update of ADAGRAD_RDA *)

Lemma coeff_insert (v : VectorXd) (i : nat) (r : R) :
  (i < length v)%nat -> coeff (<[i := r]> v) i = Ok r.
Proof. intros Hi. apply coeff_Some. by apply list_lookup_insert_eq. Qed.

(** The callback on a coordinate that is in range. *)
Lemma ADAGRAD_RDA_update_coordinate_Ok (label : Z) (k : nat) (value : R)
    (m : ADAGRAD_RDA.t) (gi hi wi : R) :
  ADAGRAD_RDA._g m !! k = Some gi ->
  ADAGRAD_RDA._h m !! k = Some hi ->
  ADAGRAD_RDA._w m !! k = Some wi ->
  let gradiant := IZR (- label) * value in
  ADAGRAD_RDA.update_coordinate label k value m
  = Ok (ADAGRAD_RDA.mk (ADAGRAD_RDA.kDim m) (ADAGRAD_RDA.kEta m)
          (ADAGRAD_RDA.kLambda m) (ADAGRAD_RDA._timestep m)
          (<[k := ADAGRAD_RDA.threshold (ADAGRAD_RDA.kEta m)
                    (ADAGRAD_RDA.kLambda m) (ADAGRAD_RDA._timestep m)
                    (gi + gradiant) (hi + gradiant * gradiant)]>
             (ADAGRAD_RDA._w m))
          (<[k := hi + gradiant * gradiant]> (ADAGRAD_RDA._h m))
          (<[k := gi + gradiant]> (ADAGRAD_RDA._g m))).
Proof.
  intros Hg Hh Hw gradiant.
  pose proof (lookup_lt_Some _ _ _ Hg) as Hgk.
  pose proof (lookup_lt_Some _ _ _ Hh) as Hhk.
  pose proof (lookup_lt_Some _ _ _ Hw) as Hwk.
  unfold ADAGRAD_RDA.update_coordinate.
  rewrite (coeff_Some _ _ _ Hg). cbn [mbind result_bind].
  rewrite set_coeff_lt by done. cbn [mbind result_bind]. cbv zeta.
  unfold ADAGRAD_RDA.set_h, ADAGRAD_RDA.set_g, ADAGRAD_RDA.set_w.
  cbn [ADAGRAD_RDA._g ADAGRAD_RDA._h ADAGRAD_RDA._w ADAGRAD_RDA.kDim
       ADAGRAD_RDA.kEta ADAGRAD_RDA.kLambda ADAGRAD_RDA._timestep].
  rewrite (coeff_Some _ _ _ Hh). cbn [mbind result_bind].
  rewrite set_coeff_lt by done. cbn [mbind result_bind].
  rewrite !coeff_insert by done. cbn [mbind result_bind].
  rewrite set_coeff_lt by done. reflexivity.
Qed.

(** What one effective [update] does to the object: the time step is
    incremented and every visited coordinate accumulates the gradient in
    [_g] and its square in [_h] and gets the thresholded weight; the other
    coordinates and the constants are kept. *)
Lemma ADAGRAD_RDA_update_coordinates {E : Enumerate} (m : ADAGRAD_RDA.t)
    (x : VectorXd) (y : Z) :
  length (ADAGRAD_RDA._w m) = length x ->
  length (ADAGRAD_RDA._h m) = length x ->
  length (ADAGRAD_RDA._g m) = length x ->
  exists loss,
    ADAGRAD_RDA.suffer_loss m x y = Ok loss
    /\ loss = hinge y (sum_of_products (ADAGRAD_RDA._w m) x)
    /\ (loss <= 0 -> ADAGRAD_RDA.update m x y = Ok (false, m))
    /\ (loss > 0 ->
        exists m',
          ADAGRAD_RDA.update m x y = Ok (true, m')
          /\ ADAGRAD_RDA.kDim m' = ADAGRAD_RDA.kDim m
          /\ ADAGRAD_RDA.kEta m' = ADAGRAD_RDA.kEta m
          /\ ADAGRAD_RDA.kLambda m' = ADAGRAD_RDA.kLambda m
          /\ ADAGRAD_RDA._timestep m' = size_t_incr (ADAGRAD_RDA._timestep m)
          /\ length (ADAGRAD_RDA._w m') = length x
          /\ length (ADAGRAD_RDA._h m') = length x
          /\ length (ADAGRAD_RDA._g m') = length x
          /\ forall i xi gi hi wi,
              x !! i = Some xi ->
              ADAGRAD_RDA._g m !! i = Some gi ->
              ADAGRAD_RDA._h m !! i = Some hi ->
              ADAGRAD_RDA._w m !! i = Some wi ->
              let gradiant := IZR (- y) * xi in
              ADAGRAD_RDA._g m' !! i
              = Some (if visits xi then gi + gradiant else gi)
              /\ ADAGRAD_RDA._h m' !! i
                 = Some (if visits xi then hi + gradiant * gradiant else hi)
              /\ ADAGRAD_RDA._w m' !! i
                 = Some (if visits xi
                         then ADAGRAD_RDA.threshold (ADAGRAD_RDA.kEta m)
                                (ADAGRAD_RDA.kLambda m)
                                (size_t_incr (ADAGRAD_RDA._timestep m))
                                (gi + gradiant) (hi + gradiant * gradiant)
                         else wi)).
Proof.
  intros Hlw Hlh Hlg.
  set (loss := std_max 0 (1 - IZR y * sum_of_products (ADAGRAD_RDA._w m) x)).
  assert (Hloss : ADAGRAD_RDA.suffer_loss m x y = Ok loss).
  { unfold ADAGRAD_RDA.suffer_loss. by rewrite dot_Ok. }
  exists loss. split; [done|]. split; [apply std_max_Rmax|]. split.
  { intros Hle. unfold ADAGRAD_RDA.update. rewrite Hloss. simpl.
    by rewrite decide_True. }
  intros Hpos.
  set (t1 := size_t_incr (ADAGRAD_RDA._timestep m)).
  set (m1 := ADAGRAD_RDA.set_timestep m t1).
  set (I := fun (k : nat) (mk : ADAGRAD_RDA.t) =>
    ADAGRAD_RDA.kDim mk = ADAGRAD_RDA.kDim m
    /\ ADAGRAD_RDA.kEta mk = ADAGRAD_RDA.kEta m
    /\ ADAGRAD_RDA.kLambda mk = ADAGRAD_RDA.kLambda m
    /\ ADAGRAD_RDA._timestep mk = t1
    /\ length (ADAGRAD_RDA._w mk) = length x
    /\ length (ADAGRAD_RDA._h mk) = length x
    /\ length (ADAGRAD_RDA._g mk) = length x
    /\ forall i xi gi hi wi,
        x !! i = Some xi ->
        ADAGRAD_RDA._g m !! i = Some gi ->
        ADAGRAD_RDA._h m !! i = Some hi ->
        ADAGRAD_RDA._w m !! i = Some wi ->
        let gradiant := IZR (- y) * xi in
        let b := bool_decide (i < k)%nat && visits xi in
        ADAGRAD_RDA._g mk !! i = Some (if b then gi + gradiant else gi)
        /\ ADAGRAD_RDA._h mk !! i
           = Some (if b then hi + gradiant * gradiant else hi)
        /\ ADAGRAD_RDA._w mk !! i
           = Some (if b
                   then ADAGRAD_RDA.threshold (ADAGRAD_RDA.kEta m)
                          (ADAGRAD_RDA.kLambda m) t1
                          (gi + gradiant) (hi + gradiant * gradiant)
                   else wi)).
  destruct (enumerate_invariant I (ADAGRAD_RDA.update_coordinate y) x m1)
    as (m' & Hrun & Hend).
  - unfold I. split_and!; try done;
      intros i xi gi hi wi Hxi Hgi Hhi Hwi; cbn zeta;
      rewrite (bool_decide_eq_false_2 (i < 0)%nat) by lia; done.
  - intros k value mk Hk (HkDim & HkEta & HkLam & Ht & Hlwk & Hlhk & Hlgk
                          & Hcells).
    pose proof (lookup_lt_Some _ _ _ Hk) as Hklt.
    destruct (lookup_lt_is_Some_2 (ADAGRAD_RDA._g m) k) as [gk Hgk]; [lia|].
    destruct (lookup_lt_is_Some_2 (ADAGRAD_RDA._h m) k) as [hk Hhk]; [lia|].
    destruct (lookup_lt_is_Some_2 (ADAGRAD_RDA._w m) k) as [wk Hwk]; [lia|].
    destruct (Hcells k value gk hk wk Hk Hgk Hhk Hwk) as (Hcg & Hch & Hcw).
    cbn zeta in Hcg, Hch, Hcw.
    rewrite (bool_decide_eq_false_2 (k < k)%nat) in Hcg, Hch, Hcw by lia.
    cbn [andb] in Hcg, Hch, Hcw.
    assert (Hother : forall i xi, i <> k ->
              bool_decide (i < S k)%nat && visits xi
              = bool_decide (i < k)%nat && visits xi).
    { intros i xi Hne. f_equal. apply bool_decide_ext. lia. }
    destruct (visits value) eqn:Hvisit.
    + eexists. split.
      { apply (ADAGRAD_RDA_update_coordinate_Ok y k value mk gk hk wk);
          done. }
      unfold I.
      cbn [ADAGRAD_RDA._g ADAGRAD_RDA._h ADAGRAD_RDA._w ADAGRAD_RDA.kDim
           ADAGRAD_RDA.kEta ADAGRAD_RDA.kLambda ADAGRAD_RDA._timestep].
      rewrite !length_insert. split_and!; try done.
      intros i xi gi hi wi Hxi Hgi Hhi Hwi; cbn zeta.
      destruct (decide (i = k)) as [->|Hne].
      * rewrite !list_lookup_insert_eq by lia.
        rewrite (bool_decide_eq_true_2 (k < S k)%nat) by lia.
        rewrite Hk in Hxi; injection Hxi as <-.
        rewrite Hgk in Hgi; injection Hgi as <-.
        rewrite Hhk in Hhi; injection Hhi as <-.
        rewrite Hvisit; cbn [andb]. by rewrite ?HkEta, ?HkLam, ?Ht.
      * rewrite !list_lookup_insert_ne by done.
        rewrite (Hother i xi Hne).
        by apply (Hcells i xi gi hi wi).
    + unfold I. split_and!; try done.
      intros i xi gi hi wi Hxi Hgi Hhi Hwi; cbn zeta.
      destruct (decide (i = k)) as [->|Hne].
      * rewrite Hk in Hxi; injection Hxi as <-.
        rewrite Hgk in Hgi; injection Hgi as <-.
        rewrite Hhk in Hhi; injection Hhi as <-.
        rewrite Hwk in Hwi; injection Hwi as <-.
        rewrite Hvisit, andb_false_r. done.
      * rewrite (Hother i xi Hne).
        by apply (Hcells i xi gi hi wi).
  - destruct Hend as (HkDim & HkEta & HkLam & Ht & Hlwk & Hlhk & Hlgk
                      & Hcells).
    exists m'. split_and!; try done.
    + unfold ADAGRAD_RDA.update. rewrite Hloss. simpl.
      rewrite decide_False by lra. fold t1. fold m1.
      rewrite Hrun. reflexivity.
    + intros i xi gi hi wi Hxi Hgi Hhi Hwi.
      destruct (Hcells i xi gi hi wi Hxi Hgi Hhi Hwi) as (Hcg & Hch & Hcw).
      cbn zeta in *. pose proof (lookup_lt_Some _ _ _ Hxi) as Hilt.
      rewrite (bool_decide_eq_true_2 (i < length x)%nat) in Hcg, Hch, Hcw
        by done.
      done.
Qed.

Lemma ADAGRAD_RDA_new_inv (dim : Z) (eta lambda : R) (m : ADAGRAD_RDA.t) :
  ADAGRAD_RDA.new dim eta lambda = Ok m ->
  (dim > 0)%Z /\ eta > 0 /\ lambda > 0
  /\ m = ADAGRAD_RDA.mk dim eta lambda 0 (Zero dim) (Zero dim) (Zero dim).
Proof.
  unfold ADAGRAD_RDA.new. intros Hnew.
  apply bind_Ok_inv in Hnew as (? & Hdim%assert_Ok_inv & Hnew).
  apply bind_Ok_inv in Hnew as (? & Heta%assert_Ok_inv & Hnew).
  apply bind_Ok_inv in Hnew as (? & Hlam%assert_Ok_inv & Hnew).
  apply bool_decide_eq_true in Hdim, Heta, Hlam.
  by injection Hnew as <-.
Qed.

Lemma ADAGRAD_RDA_new_Ok (dim : Z) (eta lambda : R) :
  (dim > 0)%Z -> eta > 0 -> lambda > 0 ->
  ADAGRAD_RDA.new dim eta lambda
  = Ok (ADAGRAD_RDA.mk dim eta lambda 0 (Zero dim) (Zero dim) (Zero dim)).
Proof.
  intros Hdim Heta Hlam. unfold ADAGRAD_RDA.new.
  rewrite !bool_decide_eq_true_2 by done. reflexivity.
Qed.

(** A call of [update] that returns was given a vector of the size of
    [_w]. *)
Lemma ADAGRAD_RDA_update_Ok_length {E : Enumerate} (m m' : ADAGRAD_RDA.t)
    (x : VectorXd) (y : Z) (b : bool) :
  ADAGRAD_RDA.update m x y = Ok (b, m') ->
  length (ADAGRAD_RDA._w m) = length x.
Proof.
  unfold ADAGRAD_RDA.update, ADAGRAD_RDA.suffer_loss. intros Hup.
  apply bind_Ok_inv in Hup as (loss & Hloss & _).
  apply bind_Ok_inv in Hloss as (d & Hd & _).
  by apply dot_Ok_inv in Hd as [Hlen _].
Qed.

(** One returning [update], seen from its result. *)
Lemma ADAGRAD_RDA_update_cases {E : Enumerate} (n : nat)
    (m m' : ADAGRAD_RDA.t) (x : VectorXd) (y : Z) (b : bool) :
  ADAGRAD_RDA_sized n m ->
  ADAGRAD_RDA.update m x y = Ok (b, m') ->
  length x = n
  /\ ((b = false /\ m' = m)
      \/ (b = true
          /\ ADAGRAD_RDA_sized n m'
          /\ ADAGRAD_RDA.kDim m' = ADAGRAD_RDA.kDim m
          /\ ADAGRAD_RDA.kEta m' = ADAGRAD_RDA.kEta m
          /\ ADAGRAD_RDA.kLambda m' = ADAGRAD_RDA.kLambda m
          /\ ADAGRAD_RDA._timestep m' = size_t_incr (ADAGRAD_RDA._timestep m)
          /\ forall i xi gi hi wi,
              x !! i = Some xi ->
              ADAGRAD_RDA._g m !! i = Some gi ->
              ADAGRAD_RDA._h m !! i = Some hi ->
              ADAGRAD_RDA._w m !! i = Some wi ->
              let gradiant := IZR (- y) * xi in
              ADAGRAD_RDA._g m' !! i
              = Some (if visits xi then gi + gradiant else gi)
              /\ ADAGRAD_RDA._h m' !! i
                 = Some (if visits xi then hi + gradiant * gradiant else hi)
              /\ ADAGRAD_RDA._w m' !! i
                 = Some (if visits xi
                         then ADAGRAD_RDA.threshold (ADAGRAD_RDA.kEta m)
                                (ADAGRAD_RDA.kLambda m)
                                (ADAGRAD_RDA._timestep m')
                                (gi + gradiant) (hi + gradiant * gradiant)
                         else wi))).
Proof.
  intros (Hlw & Hlh & Hlg) Hup.
  pose proof (ADAGRAD_RDA_update_Ok_length _ _ _ _ _ Hup) as Hlen.
  split; [congruence|].
  destruct (ADAGRAD_RDA_update_coordinates m x y)
    as (loss & Hloss & _ & Hskip & Heff); try congruence.
  destruct (decide (loss <= 0)) as [Hle|Hgt].
  - left. rewrite (Hskip Hle) in Hup. by injection Hup as <- <-.
  - right. destruct Heff as (m1 & Hup1 & HkDim & HkEta & HkLam & Ht & Hlw1
                             & Hlh1 & Hlg1 & Hcells); [lra|].
    rewrite Hup1 in Hup. injection Hup as <- <-.
    split_and!; try done.
    + unfold ADAGRAD_RDA_sized. split_and!; congruence.
    + rewrite Ht. exact Hcells.
Qed.


(** A sequence of updates with vectors of the size of the object returns. *)
Lemma ADAGRAD_RDA_updates_Ok {E : Enumerate} (n : nat) :
  forall examples m,
    ADAGRAD_RDA_sized n m ->
    Forall (fun e : VectorXd * Z => length e.1 = n) examples ->
    exists m', ADAGRAD_RDA_updates m examples = Ok m'.
Proof.
  induction examples as [|[x y] rest IH]; intros m Hsized Hall.
  - by exists m.
  - apply Forall_cons in Hall as [Hx Hrest]. cbn [fst] in Hx.
    destruct Hsized as (Hlw & Hlh & Hlg).
    destruct (ADAGRAD_RDA_update_coordinates m x y)
      as (loss & _ & _ & Hskip & Heff); try congruence.
    cbn [ADAGRAD_RDA_updates].
    destruct (decide (loss <= 0)) as [Hle|Hgt].
    + rewrite (Hskip Hle). cbn. by apply IH.
    + destruct Heff as (m1 & -> & _ & _ & _ & _ & Hlw1 & Hlh1 & Hlg1 & _);
        [lra|].
      cbn. apply IH; [|done]. unfold ADAGRAD_RDA_sized. split_and!; congruence.
Qed.

(** A coordinate whose weight is 0 keeps the weight 0 as long as its
    averaged gradient magnitude stays within [kLambda]. *)
Lemma ADAGRAD_RDA_zero_weight_kept {E : Enumerate} (n i : nat) :
  forall (examples : list (VectorXd * Z)) (m0 : ADAGRAD_RDA.t),
    ADAGRAD_RDA_sized n m0 ->
    ADAGRAD_RDA._w m0 !! i = Some 0 ->
    (forall k mk gi,
        ADAGRAD_RDA_updates m0 (take k examples) = Ok mk ->
        ADAGRAD_RDA._g mk !! i = Some gi ->
        averaged_magnitude mk gi <= ADAGRAD_RDA.kLambda mk) ->
    forall k mk,
      ADAGRAD_RDA_updates m0 (take k examples) = Ok mk ->
      ADAGRAD_RDA._w mk !! i = Some 0.
Proof.
  induction examples as [|[x y] rest IH]; intros m0 Hsized Hw0 Hu k mk Hrun.
  - rewrite take_nil in Hrun. by injection Hrun as <-.
  - destruct k as [|k]; [by injection Hrun as <-|].
    cbn [take ADAGRAD_RDA_updates] in Hrun.
    apply bind_Ok_inv in Hrun as ([b m1] & Hup & Hrun). cbn [snd] in Hrun.
    assert (Hfirst : ADAGRAD_RDA_updates m0 (take 1 ((x, y) :: rest)) = Ok m1).
    { cbn [take ADAGRAD_RDA_updates]. rewrite take_0. rewrite Hup.
      reflexivity. }
    assert (Hnext : forall j mj,
              ADAGRAD_RDA_updates m1 (take j rest) = Ok mj ->
              ADAGRAD_RDA_updates m0 (take (S j) ((x, y) :: rest)) = Ok mj).
    { intros j mj Hj. cbn [take ADAGRAD_RDA_updates]. rewrite Hup.
      exact Hj. }
    destruct (ADAGRAD_RDA_update_cases n m0 m1 x y b Hsized Hup)
      as (Hlen & [(-> & ->) | (-> & Hsized1 & _ & _ & HkLam & Ht & Hcells)]).
    + apply (IH m0 Hsized Hw0) with (k := k); [|exact Hrun].
      intros j mj gj Hj. apply Hu with (k := S j). by apply Hnext.
    + apply (IH m1 Hsized1) with (k := k); [| |exact Hrun].
      * destruct Hsized as (Hlw & Hlh & Hlg).
        pose proof (lookup_lt_Some _ _ _ Hw0) as Hi.
        destruct (lookup_lt_is_Some_2 x i) as [xi Hxi]; [lia|].
        destruct (lookup_lt_is_Some_2 (ADAGRAD_RDA._g m0) i) as [gi Hgi];
          [lia|].
        destruct (lookup_lt_is_Some_2 (ADAGRAD_RDA._h m0) i) as [hi Hhi];
          [lia|].
        destruct (Hcells i xi gi hi 0 Hxi Hgi Hhi Hw0) as (Hg1 & _ & Hw1).
        cbn zeta in Hg1, Hw1. rewrite Hw1.
        destruct (visits xi); [|done].
        pose proof (Hu 1%nat m1 _ Hfirst Hg1) as Hle.
        unfold averaged_magnitude in Hle. rewrite HkLam in Hle.
        unfold ADAGRAD_RDA.threshold. by rewrite decide_True.
      * intros j mj gj Hj. apply Hu with (k := S j). by apply Hnext.
Qed.

(** C7. On every effective update of ADAGRAD_RDA (hinge loss positive) and
    for every coordinate [i] the loop visits, [g[i]] accumulates the
    gradient [-y * x[i]], [h[i]] its square, and the new weight is the
    soft threshold of the averaged magnitude [u = |g[i]| / timestep]:
    [w[i] = 0] when [u <= lambda], and
    [w[i] = -sign(g[i]) * (eta / sqrt(h[i])) * timestep * (u - lambda)]
    otherwise.  Consequently, from a freshly constructed object, a
    coordinate whose [u] never exceeds [lambda] has [w[i] = 0] after every
    update, however many updates there are. *)
Theorem ADAGRAD_RDA_soft_threshold {E : Enumerate} :
  (forall (m : ADAGRAD_RDA.t) (x : VectorXd) (y : Z),
      ADAGRAD_RDA_sized (length x) m ->
      hinge y (sum_of_products (ADAGRAD_RDA._w m) x) > 0 ->
      exists m',
        ADAGRAD_RDA.update m x y = Ok (true, m')
        /\ ADAGRAD_RDA._timestep m' = size_t_incr (ADAGRAD_RDA._timestep m)
        /\ forall i xi gi hi wi,
            x !! i = Some xi -> visits xi = true ->
            ADAGRAD_RDA._g m !! i = Some gi ->
            ADAGRAD_RDA._h m !! i = Some hi ->
            ADAGRAD_RDA._w m !! i = Some wi ->
            let g' := gi + - IZR y * xi in
            let h' := hi + (- IZR y * xi) * (- IZR y * xi) in
            let sign := if decide (g' >= 0) then 1 else -1 in
            let eta_i := ADAGRAD_RDA.kEta m / sqrt h' in
            let timestep := IZR (ADAGRAD_RDA._timestep m') in
            let u := averaged_magnitude m' g' in
            ADAGRAD_RDA._g m' !! i = Some g'
            /\ ADAGRAD_RDA._h m' !! i = Some h'
            /\ (u <= ADAGRAD_RDA.kLambda m ->
                ADAGRAD_RDA._w m' !! i = Some 0)
            /\ (u > ADAGRAD_RDA.kLambda m ->
                ADAGRAD_RDA._w m' !! i
                = Some (- sign * eta_i * timestep
                        * (u - ADAGRAD_RDA.kLambda m))))
  /\ (forall dim eta lambda m0 (examples : list (VectorXd * Z)) (i : nat),
      ADAGRAD_RDA.new dim eta lambda = Ok m0 ->
      (i < Z.to_nat dim)%nat ->
      (forall k mk gi,
          ADAGRAD_RDA_updates m0 (take k examples) = Ok mk ->
          ADAGRAD_RDA._g mk !! i = Some gi ->
          averaged_magnitude mk gi <= ADAGRAD_RDA.kLambda mk) ->
      forall k mk,
        ADAGRAD_RDA_updates m0 (take k examples) = Ok mk ->
        ADAGRAD_RDA._w mk !! i = Some 0).
Proof.
  split.
  - intros m x y (Hlw & Hlh & Hlg) Hpos.
    destruct (ADAGRAD_RDA_update_coordinates m x y Hlw Hlh Hlg)
      as (loss & _ & -> & _ & Heff).
    destruct (Heff Hpos) as (m' & Hup & _ & _ & _ & Ht & _ & _ & _ & Hcells).
    exists m'. split_and!; try done.
    intros i xi gi hi wi Hxi Hvisit Hgi Hhi Hwi.
    destruct (Hcells i xi gi hi wi Hxi Hgi Hhi Hwi) as (Hg1 & Hh1 & Hw1).
    cbn zeta in *. rewrite Hvisit in Hg1, Hh1, Hw1.
    rewrite opp_IZR in Hg1, Hh1, Hw1.
    split_and!; try done.
    + intros Hu. rewrite Hw1. unfold ADAGRAD_RDA.threshold.
      unfold averaged_magnitude in Hu. rewrite Ht in Hu.
      by rewrite decide_True.
    + intros Hu. rewrite Hw1. unfold ADAGRAD_RDA.threshold.
      unfold averaged_magnitude in *. rewrite Ht in *.
      rewrite decide_False by lra.
      destruct (decide (_ >= 0)); by rewrite opp_IZR.
  - intros dim eta lambda m0 examples i Hnew Hi Hu k mk Hrun.
    apply ADAGRAD_RDA_new_inv in Hnew as (_ & _ & _ & ->).
    eapply (ADAGRAD_RDA_zero_weight_kept (Z.to_nat dim) i examples);
      [| |exact Hu|exact Hrun].
    + unfold ADAGRAD_RDA_sized. cbn. by rewrite length_Zero.
    + cbn. by apply lookup_replicate_2.
Qed.

Lemma ADAGRAD_RDA_soft_threshold_witness :
  (exists m',
      ADAGRAD_RDA.update (E := visit_all)
        (ADAGRAD_RDA.mk 2 1 1 0 [0; 0] [0; 0] [0; 0]) [1; 3] 1 = Ok (true, m')
      /\ ADAGRAD_RDA._w m' !! 0%nat = Some 0)
  /\ (exists m1,
        ADAGRAD_RDA_updates (E := visit_all)
          (ADAGRAD_RDA.mk 2 1 1 0 [0; 0] [0; 0] [0; 0]) [([1; 0], 1%Z)]
        = Ok m1
        /\ ADAGRAD_RDA._w m1 !! 1%nat = Some 0).
Proof.
  split.
  - destruct (proj1 (ADAGRAD_RDA_soft_threshold (E := visit_all))
                (ADAGRAD_RDA.mk 2 1 1 0 [0; 0] [0; 0] [0; 0]) [1; 3] 1%Z)
      as (m' & Hup & Ht & Hcells).
    + repeat split.
    + unfold hinge, Rmax. simpl. destruct (Rle_dec _ _); lra.
    + exists m'. split; [exact Hup|].
      destruct (Hcells 0%nat 1 0 0 0 eq_refl eq_refl eq_refl eq_refl eq_refl)
        as (_ & _ & Hzero & _).
      apply Hzero. unfold averaged_magnitude. rewrite Ht. simpl.
      change (size_t_incr 0) with 1%Z. simplify_Rabs. lra.
  - destruct (ADAGRAD_RDA_updates_Ok (E := visit_all) 2
                [([1; 0], 1%Z)] (ADAGRAD_RDA.mk 2 1 1 0 [0; 0] [0; 0] [0; 0]))
      as [m1 Hm1]; [repeat split | by repeat constructor |].
    exists m1. split; [exact Hm1|].
    apply (proj2 (ADAGRAD_RDA_soft_threshold (E := visit_all))
             2%Z 1 1 (ADAGRAD_RDA.mk 2 1 1 0 [0; 0] [0; 0] [0; 0])
             [([1; 0], 1%Z)] 1%nat) with (k := 1%nat).
    + by apply ADAGRAD_RDA_new_Ok; [lia|lra|lra].
    + simpl. lia.
    + intros [|k] mk gi Hrun Hg.
      * injection Hrun as <-. injection Hg as <-.
        unfold averaged_magnitude. simpl. rewrite Rabs_R0. lra.
      * cbn [take ADAGRAD_RDA_updates] in Hrun. rewrite take_nil in Hrun.
        revert Hrun. run_ADAGRAD_RDA_update.
        intros [= <-]. injection Hg as <-.
        unfold averaged_magnitude. simpl.
        change (size_t_incr 0) with 1%Z. simplify_Rabs. lra.
    + exact Hm1.
Defined.

(** ** The sign invariant of ADAGRAD_RDA *)



(** The threshold of a zero accumulated gradient is zero. *)
Lemma threshold_of_zero (kEta kLambda : R) (t : Z) (h : R) :
  0 <= kLambda -> ADAGRAD_RDA.threshold kEta kLambda t 0 h = 0.
Proof.
  intros Hlam. unfold ADAGRAD_RDA.threshold. cbv zeta.
  rewrite decide_True; [done|]. rewrite Rabs_R0. unfold Rdiv. lra.
Qed.










(** ** update of NHERD *)

(** The loop of [compute_confidence] sums [Sigma[i] * x[i]^2]. *)
Lemma NHERD_confidence_loop {E : Enumerate} :
  forall (x covariances pre : VectorXd) (acc : R),
    length covariances = length x ->
    enumerate x (length pre)
      (fun index value confidence =>
         ci ← coeff (pre ++ covariances) index;
         mret (confidence + ci * value * value)) acc
    = Ok (acc + spec_confidence covariances x).
Proof.
  induction x as [|xi x IH]; intros [|ci covariances] pre acc Hlen;
    try discriminate; cbn [enumerate spec_confidence].
  - f_equal. lra.
  - replace (pre ++ ci :: covariances) with ((pre ++ [ci]) ++ covariances)
      by (by rewrite <- app_assoc).
    replace (S (length pre)) with (length (pre ++ [ci]))
      by (rewrite length_app; simpl; lia).
    destruct (visits xi) eqn:Hvisit.
    + rewrite (coeff_Some _ _ ci).
      2: { rewrite <- app_assoc. by apply list_lookup_middle. }
      cbn [mbind result_bind mret result_ret].
      rewrite IH by (simpl in Hlen; lia). f_equal. simpl. lra.
    + apply not_visited_zero in Hvisit. subst xi.
      cbn [mbind result_bind].
      rewrite IH by (simpl in Hlen; lia). f_equal. simpl. lra.
Qed.

Lemma NHERD_compute_confidence_Ok {E : Enumerate} (m : NHERD.t)
    (x : VectorXd) :
  length (NHERD._covariances m) = length x ->
  NHERD.compute_confidence m x
  = Ok (spec_confidence (NHERD._covariances m) x).
Proof.
  intros Hlen. unfold NHERD.compute_confidence.
  rewrite (NHERD_confidence_loop x (NHERD._covariances m) [] 0 Hlen).
  f_equal. lra.
Qed.

(** On a zero entry each of the four formulas returns the covariance it
    was given. *)
Lemma covariance_body_zero_value (C : R) (f : NHERD.covariance_lambda)
    (covariance confidence : R) :
  NHERD.covariance_body C f covariance confidence 0 = covariance.
Proof.
  destruct f; unfold NHERD.covariance_body; cbv zeta.
  - unfold Rdiv. ring.
  - replace (1 + C * 0 * 0 * covariance) with 1 by ring.
    unfold Rdiv. rewrite pow1, Rinv_1. ring.
  - replace (1 / covariance + (2 * C + C * C * confidence) * 0 * 0)
      with (/ covariance) by (unfold Rdiv; ring).
    unfold Rdiv. rewrite Rinv_inv. ring.
  - unfold Rdiv. ring.
Qed.

(** The callback on a coordinate that is in range. *)
Lemma NHERD_update_coordinate_Ok (alpha confidence : R) (label : Z)
    (k : nat) (value : R) (m : NHERD.t) (f : NHERD.covariance_lambda)
    (mi ci : R) :
  NHERD._compute_covariance m = Some f ->
  NHERD._means m !! k = Some mi ->
  NHERD._covariances m !! k = Some ci ->
  NHERD.update_coordinate alpha confidence label k value m
  = Ok (NHERD.mk (NHERD.kDim m) (NHERD.kC m) (NHERD.kDiagonal m)
          (<[k := NHERD.covariance_body (NHERD.kC m) f ci confidence value]>
             (NHERD._covariances m))
          (<[k := mi + alpha * IZR label * ci * value]> (NHERD._means m))
          (Some f)).
Proof.
  intros Hf Hm Hc.
  pose proof (lookup_lt_Some _ _ _ Hm) as Hmk.
  pose proof (lookup_lt_Some _ _ _ Hc) as Hck.
  unfold NHERD.update_coordinate.
  rewrite (coeff_Some _ _ _ Hm). cbn [mbind result_bind].
  rewrite (coeff_Some _ _ _ Hc). cbn [mbind result_bind].
  rewrite set_coeff_lt by done. cbn [mbind result_bind]. cbv zeta.
  unfold NHERD.call_compute_covariance, NHERD.set_means,
    NHERD.set_covariances.
  cbn [NHERD._means NHERD._covariances NHERD.kDim NHERD.kC NHERD.kDiagonal
       NHERD._compute_covariance].
  rewrite (coeff_Some _ _ _ Hc). cbn [mbind result_bind].
  rewrite Hf. cbn [mbind result_bind].
  rewrite set_coeff_lt by done. reflexivity.
Qed.

(** What one [update] does to the object. *)
Lemma NHERD_update_coordinates {E : Enumerate} (m : NHERD.t)
    (f : NHERD.covariance_lambda) (x : VectorXd) (y : Z) :
  NHERD._compute_covariance m = Some f ->
  length (NHERD._means m) = length x ->
  length (NHERD._covariances m) = length x ->
  let margin := sum_of_products (NHERD._means m) x in
  let confidence := spec_confidence (NHERD._covariances m) x in
  let alpha := std_max 0 (1 - IZR y * margin) / (confidence + 1 / NHERD.kC m) in
  NHERD.suffer_loss margin y < 1 ->
  exists m',
    NHERD.update m x y = Ok (true, m')
    /\ NHERD.kDim m' = NHERD.kDim m /\ NHERD.kC m' = NHERD.kC m
    /\ NHERD.kDiagonal m' = NHERD.kDiagonal m
    /\ NHERD._compute_covariance m' = Some f
    /\ length (NHERD._means m') = length x
    /\ length (NHERD._covariances m') = length x
    /\ forall i xi mi ci,
        x !! i = Some xi ->
        NHERD._means m !! i = Some mi ->
        NHERD._covariances m !! i = Some ci ->
        NHERD._means m' !! i = Some (mi + alpha * IZR y * ci * xi)
        /\ NHERD._covariances m' !! i
           = Some (NHERD.covariance_body (NHERD.kC m) f ci confidence xi).
Proof.
  intros Hf Hlm Hlc margin confidence alpha Hloss.
  set (I := fun (k : nat) (mk : NHERD.t) =>
    NHERD.kDim mk = NHERD.kDim m /\ NHERD.kC mk = NHERD.kC m
    /\ NHERD.kDiagonal mk = NHERD.kDiagonal m
    /\ NHERD._compute_covariance mk = Some f
    /\ length (NHERD._means mk) = length x
    /\ length (NHERD._covariances mk) = length x
    /\ forall i xi mi ci,
        x !! i = Some xi ->
        NHERD._means m !! i = Some mi ->
        NHERD._covariances m !! i = Some ci ->
        NHERD._means mk !! i
        = Some (if bool_decide (i < k)%nat
                then mi + alpha * IZR y * ci * xi else mi)
        /\ NHERD._covariances mk !! i
           = Some (if bool_decide (i < k)%nat
                   then NHERD.covariance_body (NHERD.kC m) f ci confidence xi
                   else ci)).
  destruct (enumerate_invariant I
              (NHERD.update_coordinate alpha confidence y) x m)
    as (m' & Hrun & Hend).
  - unfold I. split_and!; try done;
      intros i xi mi ci Hxi Hmi Hci;
      rewrite (bool_decide_eq_false_2 (i < 0)%nat) by lia; done.
  - intros k value mk Hk (HkDim & HkC & HkDiag & Hfk & Hlmk & Hlck & Hcells).
    pose proof (lookup_lt_Some _ _ _ Hk) as Hklt.
    destruct (lookup_lt_is_Some_2 (NHERD._means m) k) as [mk0 Hmk0]; [lia|].
    destruct (lookup_lt_is_Some_2 (NHERD._covariances m) k) as [ck0 Hck0];
      [lia|].
    destruct (Hcells k value mk0 ck0 Hk Hmk0 Hck0) as (Hcm & Hcc).
    rewrite (bool_decide_eq_false_2 (k < k)%nat) in Hcm, Hcc by lia.
    assert (Hother : forall i, i <> k ->
              bool_decide (i < S k)%nat = bool_decide (i < k)%nat).
    { intros i Hne. apply bool_decide_ext. lia. }
    destruct (visits value) eqn:Hvisit.
    + eexists. split.
      { by apply (NHERD_update_coordinate_Ok alpha confidence y k value mk f
                    mk0 ck0). }
      unfold I.
      cbn [NHERD._means NHERD._covariances NHERD.kDim NHERD.kC
           NHERD.kDiagonal NHERD._compute_covariance].
      rewrite !length_insert. split_and!; try done.
      intros i xi mi ci Hxi Hmi Hci.
      destruct (decide (i = k)) as [->|Hne].
      * rewrite !list_lookup_insert_eq by lia.
        rewrite (bool_decide_eq_true_2 (k < S k)%nat) by lia.
        rewrite Hk in Hxi; injection Hxi as <-.
        rewrite Hmk0 in Hmi; injection Hmi as <-.
        rewrite Hck0 in Hci; injection Hci as <-.
        by rewrite HkC.
      * rewrite !list_lookup_insert_ne by done.
        rewrite (Hother i Hne). by apply (Hcells i xi mi ci).
    + apply not_visited_zero in Hvisit. subst value.
      unfold I. split_and!; try done.
      intros i xi mi ci Hxi Hmi Hci.
      destruct (decide (i = k)) as [->|Hne].
      * rewrite (bool_decide_eq_true_2 (k < S k)%nat) by lia.
        rewrite Hk in Hxi; injection Hxi as <-.
        rewrite Hmk0 in Hmi; injection Hmi as <-.
        rewrite Hck0 in Hci; injection Hci as <-.
        rewrite Hcm, Hcc, covariance_body_zero_value.
        split; [|done]. f_equal. lra.
      * rewrite (Hother i Hne). by apply (Hcells i xi mi ci).
  - destruct Hend as (HkDim & HkC & HkDiag & Hfk & Hlmk & Hlck & Hcells).
    exists m'. split_and!; try done.
    + unfold NHERD.update, NHERD.compute_margin.
      rewrite dot_Ok by done. cbn [mbind result_bind].
      fold margin. rewrite decide_False by lra.
      rewrite NHERD_compute_confidence_Ok by done.
      cbn [mbind result_bind]. fold confidence. fold alpha.
      rewrite Hrun. reflexivity.
    + intros i xi mi ci Hxi Hmi Hci.
      destruct (Hcells i xi mi ci Hxi Hmi Hci) as (Hcm & Hcc).
      pose proof (lookup_lt_Some _ _ _ Hxi) as Hilt.
      rewrite (bool_decide_eq_true_2 (i < length x)%nat) in Hcm, Hcc by done.
      done.
Qed.




(** * Further properties of the code *)

(** ** The loop of [enumerate], seen from its result *)

(** What every returning call of the callback keeps, the loop keeps. *)
Lemma enumerate_preserves {E : Enumerate} {St : Type} (P : St -> Prop)
    (func : nat -> R -> St -> result St) :
  (forall k value s s', P s -> func k value s = Ok s' -> P s') ->
  forall values k s s',
    P s -> enumerate values k func s = Ok s' -> P s'.
Proof.
  intros Hstep. induction values as [|value rest IH]; intros k s s' HP Hrun.
  - by injection Hrun as <-.
  - cbn [enumerate] in Hrun.
    apply bind_Ok_inv in Hrun as (s1 & Hfirst & Hrest).
    apply (IH (S k) s1 s'); [|exact Hrest].
    destruct (visits value).
    + by apply (Hstep k value s s1).
    + by injection Hfirst as <-.
Qed.

(** A callback that stops on the current object makes the loop stop at the
    first entry it visits. *)
Lemma enumerate_error {E : Enumerate} {St : Type}
    (func : nat -> R -> St -> result St) (e : error) (s : St) :
  (forall k value, func k value s = Err e) ->
  forall values k,
    (exists value, value ∈ values /\ visits value = true) ->
    enumerate values k func s = Err e.
Proof.
  intros Hfunc. induction values as [|value rest IH]; intros k (v & Hin & Hv).
  - by apply elem_of_nil in Hin.
  - cbn [enumerate]. destruct (visits value) eqn:Hvisit.
    + by rewrite Hfunc.
    + cbn. apply IH. exists v. split; [|done].
      apply elem_of_cons in Hin as [->|Hin]; [congruence|done].
Qed.

(** ** PA: what [update] keeps and when it stops *)

Lemma PA_update_coordinate_inv (loss : R) (label : Z) (k : nat) (value : R)
    (m m' : PA.t) :
  PA.update_coordinate loss label k value m = Ok m' ->
  exists r, m' = PA.set_weight m (<[k := r]> (PA._weight m)).
Proof.
  unfold PA.update_coordinate. intros Hup.
  apply bind_Ok_inv in Hup as (tau & _ & Hup).
  apply bind_Ok_inv in Hup as (wi & _ & Hup).
  apply bind_Ok_inv in Hup as (weight & Hset & Hup).
  unfold set_coeff in Hset. case_decide; [|discriminate].
  injection Hset as <-. injection Hup as <-. by eexists.
Qed.

(** X1. A call of [PA::update] that returns always returns [true], was
    given a vector of the size of the weight, and changes nothing but the
    entries of the weight: the size of the weight, [kDim], [kC], [kSelect]
    and the formula object are kept. *)
Theorem PA_update_keeps_shape {E : Enumerate} (m m' : PA.t) (x : VectorXd)
    (y : Z) (b : bool) :
  PA.update m x y = Ok (b, m') ->
  b = true
  /\ length x = length (PA._weight m)
  /\ length (PA._weight m') = length (PA._weight m)
  /\ m' = PA.set_weight m (PA._weight m').
Proof.
  unfold PA.update, PA.suffer_loss. intros Hup.
  apply bind_Ok_inv in Hup as (loss & Hloss & Hup).
  apply bind_Ok_inv in Hloss as (d & [Hlen _]%dot_Ok_inv & _).
  apply bind_Ok_inv in Hup as (m1 & Hrun & [= <- <-]).
  split; [done|]. split; [done|].
  apply (enumerate_preserves
           (fun s => length (PA._weight s) = length (PA._weight m)
                     /\ s = PA.set_weight m (PA._weight s))
           (PA.update_coordinate loss y)) with (s := m) in Hrun; [done| |].
  - intros k value s s' (Hl & Hs) (r & ->)%PA_update_coordinate_inv.
    unfold PA.set_weight. cbn. rewrite length_insert. split; [done|].
    rewrite Hs. reflexivity.
  - split; [done|]. by destruct m.
Qed.

Lemma PA_update_keeps_shape_witness :
  length (PA._weight (PA.mk 2 1 0 [1; 1 / 2] (Some PA.tau_case0)))
  = length (PA._weight (PA.mk 2 1 0 [0; 0] (Some PA.tau_case0))).
Proof.
  apply (PA_update_keeps_shape (E := visit_all)
           (PA.mk 2 1 0 [0; 0] (Some PA.tau_case0))
           (PA.mk 2 1 0 [1; 1 / 2] (Some PA.tau_case0)) [1; 2] 1 true).
  run_PA_update. closed_reals.
Defined.

(** X2. On an object whose selector the constructor did not recognize
    (empty formula object), [PA::update] with a vector of the size of the
    weight that has a non-zero entry stops with [std::bad_function_call];
    a vector of another size stops at Eigen's assertion before that. *)
Theorem PA_update_empty_formula {E : Enumerate} (m : PA.t) (x : VectorXd)
    (y : Z) :
  PA._compute_tau m = None ->
  (length (PA._weight m) = length x ->
   (exists xi, xi ∈ x /\ xi <> 0) ->
   PA.update m x y = Err BadFunctionCall)
  /\ (length (PA._weight m) <> length x ->
      PA.update m x y = Err AssertionFailed).
Proof.
  intros Hnone. split.
  - intros Hlen (xi & Hin & Hne).
    unfold PA.update, PA.suffer_loss. rewrite dot_Ok by done.
    cbn [mbind result_bind mret result_ret].
    rewrite (enumerate_error _ BadFunctionCall); [done| |].
    + intros k value. unfold PA.update_coordinate, PA.call_compute_tau.
      by rewrite Hnone.
    + exists xi. split; [done|]. by apply visits_nonzero.
  - intros Hlen. unfold PA.update, PA.suffer_loss, dot.
    by rewrite decide_False.
Qed.

Lemma PA_update_empty_formula_witness :
  PA.update (E := visit_nonzero) (PA.mk 2 1 7 [0; 0] None) [0; 3] 1
  = Err BadFunctionCall.
Proof.
  apply (PA_update_empty_formula (E := visit_nonzero)
           (PA.mk 2 1 7 [0; 0] None) [0; 3] 1 eq_refl); [reflexivity|].
  exists 3. split; [|lra]. apply elem_of_cons. right. apply elem_of_cons.
  by left.
Defined.

(** ** PA: the size of the step *)

(** With no loss every formula gives a step that adds nothing. *)
Lemma PA_tau_zero_loss (C : R) (f : PA.tau_lambda) (xi : R) (y : Z) :
  f = PA.tau_case0 \/ 0 < C ->
  PA.tau_body C f xi 0 * IZR y * xi = 0.
Proof.
  intros Hf. destruct f; unfold PA.tau_body; cbv zeta.
  - case_decide; unfold Rdiv; ring.
  - case_decide; [subst; ring|].
    destruct Hf as [|HC]; [done|].
    replace (0 / Rabs xi ^ 2) with 0 by (unfold Rdiv; ring).
    unfold std_min. rewrite decide_True by done. ring.
  - unfold Rdiv. ring.
Qed.

(** X3. An example the model already classifies with margin at least 1
    ([y * (w . x) >= 1], no hinge loss) leaves a PA object exactly as it is,
    and [update] still returns [true]: for PA-0 always, for PA-I and PA-II
    when [C > 0]. *)
Theorem PA_update_zero_loss {E : Enumerate} (m : PA.t) (f : PA.tau_lambda)
    (x : VectorXd) (y : Z) :
  PA._compute_tau m = Some f ->
  length (PA._weight m) = length x ->
  f = PA.tau_case0 \/ 0 < PA.kC m ->
  IZR y * sum_of_products (PA._weight m) x >= 1 ->
  PA.update m x y = Ok (true, m).
Proof.
  intros Hf Hlen HC Hmargin.
  destruct (PA_update_coordinates m f x y Hf Hlen)
    as (loss & m' & _ & Hloss & Hup & HkDim & HkC & HkSel & Htau & Hlen'
        & Hcells).
  assert (loss = 0) as ->.
  { rewrite Hloss. unfold hinge, Rmax. destruct (Rle_dec _ _); lra. }
  rewrite Hup. do 2 f_equal.
  assert (Hw : PA._weight m' = PA._weight m).
  { apply list_eq. intros i.
    destruct (PA._weight m !! i) as [wi|] eqn:Hwi.
    - pose proof (lookup_lt_Some _ _ _ Hwi) as Hi.
      destruct (lookup_lt_is_Some_2 x i) as [xi Hxi]; [lia|].
      rewrite (Hcells i wi xi Hwi Hxi).
      rewrite Rmult_assoc, <- Rmult_assoc, PA_tau_zero_loss by done.
      f_equal. lra.
    - apply lookup_ge_None. apply lookup_ge_None in Hwi. lia. }
  destruct m, m'. simpl in *. congruence.
Qed.

Lemma PA_update_zero_loss_witness :
  PA.update (E := visit_all) (PA.mk 2 1 2 [2; 0] (Some PA.tau_case2)) [1; 5] 1
  = Ok (true, PA.mk 2 1 2 [2; 0] (Some PA.tau_case2)).
Proof.
  apply (PA_update_zero_loss (E := visit_all)
           (PA.mk 2 1 2 [2; 0] (Some PA.tau_case2)) PA.tau_case2 [1; 5] 1
           eq_refl eq_refl).
  - right. simpl. lra.
  - simpl. lra.
Defined.

(** X5. PA-I with [C >= 0]: the step size [_compute_tau] returns for the
    loss of an example lies between 0 and [C] on every entry; it is
    [min(C, loss / value^2)] on a non-zero entry and [C] on a zero entry.
    [update] adds that step size times [y * x[i]] to coordinate [i]. *)
Theorem PA1_step_bounded {E : Enumerate} (m : PA.t) (x : VectorXd) (y : Z) :
  PA._compute_tau m = Some PA.tau_case1 ->
  length (PA._weight m) = length x ->
  0 <= PA.kC m ->
  let loss := hinge y (sum_of_products (PA._weight m) x) in
  PA.suffer_loss m x y = Ok loss
  /\ (forall value, exists tau,
        PA.call_compute_tau m value loss = Ok tau
        /\ 0 <= tau <= PA.kC m
        /\ (value = 0 -> tau = PA.kC m)
        /\ (value <> 0 -> tau = Rmin (PA.kC m) (loss / value ^ 2)))
  /\ exists m',
      PA.update m x y = Ok (true, m')
      /\ forall i wi xi tau_i,
          PA._weight m !! i = Some wi -> x !! i = Some xi ->
          PA.call_compute_tau m xi loss = Ok tau_i ->
          PA._weight m' !! i = Some (wi + tau_i * IZR y * xi).
Proof.
  intros Hf Hlen HC loss.
  destruct (PA_update_coordinates m PA.tau_case1 x y Hf Hlen)
    as (loss' & m' & Hsuffer & -> & Hup & _ & _ & _ & _ & _ & Hcells).
  fold loss in Hsuffer, Hcells.
  assert (Hloss : 0 <= loss) by (unfold loss, hinge; apply Rmax_l).
  split_and!; [done | |].
  - intros value. eexists. split.
    { unfold PA.call_compute_tau. rewrite Hf. reflexivity. }
    unfold PA.tau_body. cbv zeta. case_decide as Hzero.
    + split_and!; [lra | lra | done | done].
    + rewrite pow2_abs.
      assert (Hsq : 0 < value ^ 2).
      { pose proof (Rsqr_pos_lt value Hzero) as Hpos. unfold Rsqr in Hpos.
        simpl. lra. }
      assert (Hpa : 0 <= loss / value ^ 2).
      { unfold Rdiv. apply Rmult_le_pos; [done|].
        left. by apply Rinv_0_lt_compat. }
      unfold std_min, Rmin.
      case_decide; destruct (Rle_dec _ _); split_and!; try done; try lra.
  - exists m'. split; [done|].
    intros i wi xi tau_i Hwi Hxi Htau.
    unfold PA.call_compute_tau in Htau. rewrite Hf in Htau.
    injection Htau as <-. by apply Hcells.
Qed.

Lemma PA1_step_bounded_witness :
  exists tau,
    PA.call_compute_tau (PA.mk 2 (1 / 2) 1 [0; 0] (Some PA.tau_case1)) 0
      (hinge 1 (sum_of_products [0; 0] [1; 0])) = Ok tau
    /\ tau = 1 / 2.
Proof.
  destruct (PA1_step_bounded (E := visit_all)
              (PA.mk 2 (1 / 2) 1 [0; 0] (Some PA.tau_case1)) [1; 0] 1
              eq_refl eq_refl ltac:(simpl; lra))
    as (_ & Htau & _).
  destruct (Htau 0) as (tau & Hcall & _ & Hzero & _).
  exists tau. split; [exact Hcall|]. by apply Hzero.
Defined.

(** ** save and load *)

(** X6. [PA::load] after [PA::save] under the same name: the loaded object
    has the weight, dimension, [C] and selector of the saved one whatever
    the loading instance held, and answers [predict] as the saved one; its
    formula object is the one of the loading instance, and when that agrees
    with the saved one's the loaded object is the saved object. *)
Theorem PA_save_load_round_trip {F : FileSystem} (saved loader loaded : PA.t)
    (filename : string) (files files' : gmap string PA.archive) :
  PA.save saved filename files = Ok files' ->
  PA.load loader filename files' = Ok loaded ->
  PA._weight loaded = PA._weight saved
  /\ PA.kDim loaded = PA.kDim saved
  /\ PA.kC loaded = PA.kC saved
  /\ PA.kSelect loaded = PA.kSelect saved
  /\ PA._compute_tau loaded = PA._compute_tau loader
  /\ (forall x, PA.predict loaded x = PA.predict saved x)
  /\ (PA._compute_tau loader = PA._compute_tau saved -> loaded = saved).
Proof.
  intros Hsave Hload.
  rewrite (PA_load_after_save _ _ _ _ _ Hsave) in Hload.
  injection Hload as <-. split_and!; try done.
  intros ->. by destruct saved.
Qed.

Lemma PA_save_load_round_trip_witness :
  PA._weight (PA.mk 2 1 0 [3; 4] (Some PA.tau_case2))
  = PA._weight (PA.mk 2 1 0 [3; 4] (Some PA.tau_case0)).
Proof.
  apply (PA_save_load_round_trip (F := plain_names)
           (PA.mk 2 1 0 [3; 4] (Some PA.tau_case0))
           (PA.mk 5 7 2 [0; 0; 0; 0; 0] (Some PA.tau_case2))
           (PA.mk 2 1 0 [3; 4] (Some PA.tau_case2))
           "model" ∅
           {["model" := PA.save_archive
                          (PA.mk 2 1 0 [3; 4] (Some PA.tau_case0))]});
    reflexivity.
Defined.

(** X8. [ADAGRAD_RDA::load] after [ADAGRAD_RDA::save] under the same name
    gives the saved object itself, whatever the loading instance held: the
    three vectors, the dimension, [eta], [lambda] and the time step are all
    archived and all restored, so every later [update] and [predict] agrees
    with the saved model. *)
Theorem ADAGRAD_RDA_save_load_round_trip {E : Enumerate} {F : FileSystem}
    (saved loader : ADAGRAD_RDA.t) (filename : string)
    (files files' : gmap string ADAGRAD_RDA.archive) :
  ADAGRAD_RDA.save saved filename files = Ok files' ->
  ADAGRAD_RDA.load loader filename files' = Ok saved
  /\ forall loaded,
      ADAGRAD_RDA.load loader filename files' = Ok loaded ->
      forall x y,
        ADAGRAD_RDA.update loaded x y = ADAGRAD_RDA.update saved x y
        /\ ADAGRAD_RDA.predict loaded x = ADAGRAD_RDA.predict saved x.
Proof.
  intros Hsave.
  assert (Hload : ADAGRAD_RDA.load loader filename files' = Ok saved).
  { unfold ADAGRAD_RDA.load, ADAGRAD_RDA.save in *.
    rewrite (read_after_write _ _ _ _ Hsave). by destruct saved. }
  split; [done|]. intros loaded Hloaded. rewrite Hload in Hloaded.
  by injection Hloaded as <-.
Qed.

Lemma ADAGRAD_RDA_save_load_round_trip_witness :
  ADAGRAD_RDA.load (F := plain_names)
    (ADAGRAD_RDA.mk 5 2 3 0 [0] [0] [0]) "model"
    {["model" := ADAGRAD_RDA.save_archive
                   (ADAGRAD_RDA.mk 2 1 1 7 [0; 1] [4; 9] [-2; -3])]}
  = Ok (ADAGRAD_RDA.mk 2 1 1 7 [0; 1] [4; 9] [-2; -3]).
Proof.
  apply (proj1 (ADAGRAD_RDA_save_load_round_trip (E := visit_all)
                  (F := plain_names)
                  (ADAGRAD_RDA.mk 2 1 1 7 [0; 1] [4; 9] [-2; -3])
                  (ADAGRAD_RDA.mk 5 2 3 0 [0] [0] [0]) "model" ∅ _
                  eq_refl)).
Defined.

(** X9. [ADAM::save] does not archive [_timestep] and [ADAM::load] does not
    assign it: the loaded object has the three vectors and the dimension of
    the saved one and the time step of the loading instance.  It answers
    [predict] as the saved model, and it is the saved object exactly when
    the two time steps agree. *)
Theorem ADAM_load_keeps_timestep {F : FileSystem}
    (saved loader loaded : ADAM.t)
    (filename : string) (files files' : gmap string ADAM.archive) :
  ADAM.save saved filename files = Ok files' ->
  ADAM.load loader filename files' = Ok loaded ->
  loaded = ADAM.mk (ADAM.kDim saved) (ADAM._timestep loader)
             (ADAM._w saved) (ADAM._m saved) (ADAM._v saved)
  /\ (forall x, ADAM.predict loaded x = ADAM.predict saved x)
  /\ (loaded = saved <-> ADAM._timestep loader = ADAM._timestep saved).
Proof.
  intros Hsave. unfold ADAM.load, ADAM.save in *.
  rewrite (read_after_write _ _ _ _ Hsave).
  intros [= <-]. split_and!; try done.
  destruct saved, loader. cbn. split.
  - by intros [= ->].
  - by intros ->.
Qed.

Lemma ADAM_load_keeps_timestep_witness :
  ADAM.mk 2 0 [1; 2] [3; 4] [5; 6]
  = ADAM.mk (ADAM.kDim (ADAM.mk 2 9 [1; 2] [3; 4] [5; 6]))
      (ADAM._timestep (ADAM.mk 2 0 [0; 0] [0; 0] [0; 0]))
      (ADAM._w (ADAM.mk 2 9 [1; 2] [3; 4] [5; 6]))
      (ADAM._m (ADAM.mk 2 9 [1; 2] [3; 4] [5; 6]))
      (ADAM._v (ADAM.mk 2 9 [1; 2] [3; 4] [5; 6])).
Proof.
  apply (ADAM_load_keeps_timestep (F := plain_names)
           (ADAM.mk 2 9 [1; 2] [3; 4] [5; 6])
           (ADAM.mk 2 0 [0; 0] [0; 0] [0; 0])
           (ADAM.mk 2 0 [1; 2] [3; 4] [5; 6])
           "model" ∅
           {["model" := ADAM.save_archive
                          (ADAM.mk 2 9 [1; 2] [3; 4] [5; 6])]});
    reflexivity.
Defined.

(** X10. [NHERD::load] after [NHERD::save] under the same name: the loaded
    object has the covariances, means, dimension, [C] and selector of the
    saved one and answers [predict] as the saved one; its covariance formula
    object is the one of the loading instance, and when that agrees with the
    saved one's the loaded object is the saved object. *)
Theorem NHERD_save_load_round_trip {F : FileSystem}
    (saved loader loaded : NHERD.t)
    (filename : string) (files files' : gmap string NHERD.archive) :
  NHERD.save saved filename files = Ok files' ->
  NHERD.load loader filename files' = Ok loaded ->
  loaded = NHERD.mk (NHERD.kDim saved) (NHERD.kC saved)
             (NHERD.kDiagonal saved) (NHERD._covariances saved)
             (NHERD._means saved) (NHERD._compute_covariance loader)
  /\ (forall x, NHERD.predict loaded x = NHERD.predict saved x)
  /\ (NHERD._compute_covariance loader = NHERD._compute_covariance saved ->
      loaded = saved).
Proof.
  intros Hsave. unfold NHERD.load, NHERD.save in *.
  rewrite (read_after_write _ _ _ _ Hsave).
  intros [= <-]. split_and!; try done.
  unfold NHERD.load_archive, NHERD.save_archive. cbn.
  intros ->. by destruct saved.
Qed.

Lemma NHERD_save_load_round_trip_witness :
  NHERD.mk 2 1 1 [1; 1 / 2] [3; 4] (Some NHERD.cov_case0)
  = NHERD.mk 2 1 1 [1; 1 / 2] [3; 4] (Some NHERD.cov_case0).
Proof.
  destruct (NHERD_save_load_round_trip (F := plain_names)
              (NHERD.mk 2 1 1 [1; 1 / 2] [3; 4] (Some NHERD.cov_case1))
              (NHERD.mk 2 1 0 [1; 1] [0; 0] (Some NHERD.cov_case0))
              (NHERD.mk 2 1 1 [1; 1 / 2] [3; 4] (Some NHERD.cov_case0))
              "model" ∅
              {["model" := NHERD.save_archive
                             (NHERD.mk 2 1 1 [1; 1 / 2] [3; 4]
                                (Some NHERD.cov_case1))]})
    as [Hloaded _]; [reflexivity | reflexivity | exact Hloaded].
Defined.

(** ** ADAGRAD_RDA: the time step and the coordinates no example uses *)

Lemma ADAGRAD_RDA_count_updates_spec {E : Enumerate} (n : nat) :
  forall examples m c m',
    ADAGRAD_RDA_sized n m ->
    (0 <= ADAGRAD_RDA._timestep m < 2 ^ 64)%Z ->
    ADAGRAD_RDA_count_updates m examples = Ok (c, m') ->
    ADAGRAD_RDA_updates m examples = Ok m'
    /\ (c <= length examples)%nat
    /\ ADAGRAD_RDA._timestep m'
       = ((ADAGRAD_RDA._timestep m + Z.of_nat c) mod 2 ^ 64)%Z.
Proof.
  induction examples as [|[x y] rest IH]; intros m c m' Hsized Ht Hrun.
  - injection Hrun as <- <-. split_and!; [done | done |].
    rewrite Z.add_0_r, Z.mod_small; lia.
  - cbn [ADAGRAD_RDA_count_updates ADAGRAD_RDA_updates] in *.
    apply bind_Ok_inv in Hrun as ([b m1] & Hup & Hrun).
    apply bind_Ok_inv in Hrun as ([c1 m2] & Hrest & Hrun).
    cbn [fst snd] in *. rewrite Hup. cbn [mbind result_bind snd].
    destruct (ADAGRAD_RDA_update_cases n m m1 x y b Hsized Hup)
      as (_ & [(-> & ->) | (-> & Hsized1 & _ & _ & _ & Ht1 & _)]).
    + injection Hrun as <- <-.
      destruct (IH m c1 m2 Hsized Ht Hrest) as (Hrun' & Hc & Htime).
      split_and!; [done | simpl; lia | done].
    + injection Hrun as <- <-.
      assert (Ht1' : (0 <= ADAGRAD_RDA._timestep m1 < 2 ^ 64)%Z).
      { rewrite Ht1. unfold size_t_incr. apply Z.mod_pos_bound. lia. }
      destruct (IH m1 c1 m2 Hsized1 Ht1' Hrest) as (Hrun' & Hc & Htime).
      split_and!; [done | simpl; lia |].
      rewrite Htime, Ht1. unfold size_t_incr.
      rewrite Zplus_mod_idemp_l. f_equal. lia.
Qed.

(** X11. The time step of ADAGRAD_RDA counts the updates that changed the
    object: after a sequence of updates from the constructed object,
    [_timestep] is the number of calls that returned [true] (modulo 2^64,
    and exactly that number for fewer than 2^64 examples); it never exceeds
    the number of examples. *)
Theorem ADAGRAD_RDA_timestep_counts {E : Enumerate} (dim : Z) (eta lambda : R)
    (m0 m : ADAGRAD_RDA.t) (examples : list (VectorXd * Z)) (c : nat) :
  ADAGRAD_RDA.new dim eta lambda = Ok m0 ->
  ADAGRAD_RDA_count_updates m0 examples = Ok (c, m) ->
  ADAGRAD_RDA_updates m0 examples = Ok m
  /\ (c <= length examples)%nat
  /\ ADAGRAD_RDA._timestep m = (Z.of_nat c mod 2 ^ 64)%Z
  /\ ((Z.of_nat (length examples) < 2 ^ 64)%Z ->
      ADAGRAD_RDA._timestep m = Z.of_nat c).
Proof.
  intros Hnew Hrun.
  apply ADAGRAD_RDA_new_inv in Hnew as (_ & _ & _ & ->).
  destruct (ADAGRAD_RDA_count_updates_spec (Z.to_nat dim) examples
              (ADAGRAD_RDA.mk dim eta lambda 0 (Zero dim) (Zero dim)
                 (Zero dim)) c m)
    as (Hup & Hc & Ht); [|cbn; lia|exact Hrun|].
  { unfold ADAGRAD_RDA_sized. cbn. by rewrite length_Zero. }
  cbn in Ht. split_and!; try done.
  intros Hshort. rewrite Ht. apply Z.mod_small. lia.
Qed.

Lemma ADAGRAD_RDA_timestep_counts_witness :
  exists m,
    ADAGRAD_RDA_count_updates (E := visit_all)
      (ADAGRAD_RDA.mk 2 1 1 0 [0; 0] [0; 0] [0; 0])
      [([1; 3], 1%Z); ([0; 0], 1%Z)] = Ok (2%nat, m)
    /\ ADAGRAD_RDA._timestep m = 2%Z.
Proof.
  set (m0 := ADAGRAD_RDA.mk 2 1 1 0 [0; 0] [0; 0] [0; 0]).
  destruct (ADAGRAD_RDA_update_coordinates (E := visit_all) m0 [1; 3] 1
              eq_refl eq_refl eq_refl) as (loss & _ & Hloss & _ & Heff).
  destruct Heff as (m1 & Hup1 & _ & _ & _ & _ & Hlw & Hlh & Hlg & Hcells).
  { rewrite Hloss. unfold hinge, Rmax. simpl. destruct (Rle_dec _ _); lra. }
  destruct (Hcells 0%nat 1 0 0 0 eq_refl eq_refl eq_refl eq_refl)
    as (_ & _ & Hw0).
  destruct (Hcells 1%nat 3 0 0 0 eq_refl eq_refl eq_refl eq_refl)
    as (_ & _ & Hw1).
  destruct (ADAGRAD_RDA_update_coordinates (E := visit_all) m1 [0; 0] 1
              Hlw Hlh Hlg) as (loss2 & _ & Hloss2 & _ & Heff2).
  destruct Heff2 as (m2 & Hup2 & _).
  { rewrite Hloss2.
    destruct (ADAGRAD_RDA._w m1) as [|w0 [|w1 [|]]]; try discriminate.
    unfold hinge, Rmax. simpl. destruct (Rle_dec _ _); lra. }
  assert (Hcount : ADAGRAD_RDA_count_updates (E := visit_all) m0
                     [([1; 3], 1%Z); ([0; 0], 1%Z)] = Ok (2%nat, m2)).
  { cbn [ADAGRAD_RDA_count_updates]. rewrite Hup1.
    cbn [mbind result_bind snd]. rewrite Hup2. reflexivity. }
  exists m2. split; [exact Hcount|].
  apply (ADAGRAD_RDA_timestep_counts (E := visit_all) 2 1 1 m0 m2
           [([1; 3], 1%Z); ([0; 0], 1%Z)] 2%nat).
  - by apply ADAGRAD_RDA_new_Ok; [lia|lra|lra].
  - exact Hcount.
  - simpl. lia.
Defined.

Lemma ADAGRAD_RDA_unused_coordinate {E : Enumerate} (n i : nat) :
  forall (examples : list (VectorXd * Z)) (m m' : ADAGRAD_RDA.t),
    ADAGRAD_RDA_sized n m ->
    0 <= ADAGRAD_RDA.kLambda m ->
    ADAGRAD_RDA._w m !! i = Some 0 ->
    ADAGRAD_RDA._g m !! i = Some 0 ->
    ADAGRAD_RDA._h m !! i = Some 0 ->
    Forall (fun e : VectorXd * Z => e.1 !! i = Some 0) examples ->
    ADAGRAD_RDA_updates m examples = Ok m' ->
    ADAGRAD_RDA._w m' !! i = Some 0
    /\ ADAGRAD_RDA._g m' !! i = Some 0
    /\ ADAGRAD_RDA._h m' !! i = Some 0.
Proof.
  induction examples as [|[x y] rest IH];
    intros m m' Hsized Hlam Hw Hg Hh Hall Hrun.
  - by injection Hrun as <-.
  - apply Forall_cons in Hall as [Hx Hrest]. cbn [fst] in Hx.
    cbn [ADAGRAD_RDA_updates] in Hrun.
    apply bind_Ok_inv in Hrun as ([b m1] & Hup & Hrun). cbn [snd] in Hrun.
    destruct (ADAGRAD_RDA_update_cases n m m1 x y b Hsized Hup)
      as (_ & [(-> & ->) | (-> & Hsized1 & _ & _ & HkLam & _ & Hcells)]).
    + by apply (IH m m').
    + destruct (Hcells i 0 0 0 0 Hx Hg Hh Hw) as (Hg1 & Hh1 & Hw1).
      cbn zeta in Hg1, Hh1, Hw1.
      replace (0 + IZR (- y) * 0) with 0 in * by ring.
      replace (0 + IZR (- y) * 0 * (IZR (- y) * 0)) with 0 in * by ring.
      rewrite threshold_of_zero in Hw1 by done.
      apply (IH m1 m'); try done.
      * by rewrite HkLam.
      * by destruct (visits 0).
      * by destruct (visits 0).
      * by destruct (visits 0).
Qed.

(** X12. A coordinate that is 0 in every example stays untouched in
    ADAGRAD_RDA: after any sequence of updates from the constructed object
    its weight, accumulated gradient and accumulated squared gradient are
    exactly 0, whether or not the loop visits zero entries. *)
Theorem ADAGRAD_RDA_unused_coordinate_stays_zero {E : Enumerate}
    (dim : Z) (eta lambda : R) (m0 m : ADAGRAD_RDA.t)
    (examples : list (VectorXd * Z)) (i : nat) :
  ADAGRAD_RDA.new dim eta lambda = Ok m0 ->
  (i < Z.to_nat dim)%nat ->
  Forall (fun e : VectorXd * Z => e.1 !! i = Some 0) examples ->
  ADAGRAD_RDA_updates m0 examples = Ok m ->
  ADAGRAD_RDA._w m !! i = Some 0
  /\ ADAGRAD_RDA._g m !! i = Some 0
  /\ ADAGRAD_RDA._h m !! i = Some 0.
Proof.
  intros Hnew Hi Hall Hrun.
  apply ADAGRAD_RDA_new_inv in Hnew as (_ & _ & Hlam & ->).
  eapply (ADAGRAD_RDA_unused_coordinate (Z.to_nat dim) i examples);
    [| | | | |exact Hall|exact Hrun]; cbn.
  - unfold ADAGRAD_RDA_sized. cbn. by rewrite length_Zero.
  - lra.
  - by apply lookup_replicate_2.
  - by apply lookup_replicate_2.
  - by apply lookup_replicate_2.
Qed.

Lemma ADAGRAD_RDA_unused_coordinate_stays_zero_witness :
  exists m,
    ADAGRAD_RDA_updates (E := visit_all)
      (ADAGRAD_RDA.mk 2 1 1 0 [0; 0] [0; 0] [0; 0]) [([3; 0], 1%Z)] = Ok m
    /\ ADAGRAD_RDA._w m !! 1%nat = Some 0
    /\ ADAGRAD_RDA._g m !! 1%nat = Some 0
    /\ ADAGRAD_RDA._h m !! 1%nat = Some 0.
Proof.
  destruct (ADAGRAD_RDA_updates_Ok (E := visit_all) 2 [([3; 0], 1%Z)]
              (ADAGRAD_RDA.mk 2 1 1 0 [0; 0] [0; 0] [0; 0]))
    as [m Hm]; [repeat split | by repeat constructor |].
  exists m. split; [exact Hm|].
  apply (ADAGRAD_RDA_unused_coordinate_stays_zero (E := visit_all) 2 1 1
           (ADAGRAD_RDA.mk 2 1 1 0 [0; 0] [0; 0] [0; 0]) m
           [([3; 0], 1%Z)] 1%nat).
  - by apply ADAGRAD_RDA_new_Ok; [lia|lra|lra].
  - simpl. lia.
  - by repeat constructor.
  - exact Hm.
Defined.

(** ** The earlier ADAGRAD_RDA of [src/online] *)

(** Two callbacks that agree through a translation of the objects give
    loops that agree, when the two loops visit the same entries. *)
Lemma enumerate_transport (Ea Eb : Enumerate) {S1 S2 : Type} (h : S1 -> S2)
    (f1 : nat -> R -> S1 -> result S1) (f2 : nat -> R -> S2 -> result S2) :
  (forall value, @visits Eb value = @visits Ea value) ->
  (forall k value s,
      f2 k value (h s)
      = match f1 k value s with Ok s' => Ok (h s') | Err e => Err e end) ->
  forall values k s,
    enumerate (E := Eb) values k f2 (h s)
    = match enumerate (E := Ea) values k f1 s with
      | Ok s' => Ok (h s')
      | Err e => Err e
      end.
Proof.
  intros Hvisits Hf. induction values as [|value rest IH]; intros k s; [done|].
  cbn [enumerate]. rewrite Hvisits. destruct (visits value).
  - rewrite Hf. destruct (f1 k value s) as [s1|e]; cbn; [apply IH|done].
  - cbn. apply IH.
Qed.

Lemma Online_update_coordinate_agrees (label : Z) (k : nat) (value : R)
    (m : ADAGRAD_RDA.t) :
  Online_ADAGRAD_RDA.update_coordinate label k value (to_online m)
  = match ADAGRAD_RDA.update_coordinate label k value m with
    | Ok m' => Ok (to_online m')
    | Err e => Err e
    end.
Proof.
  unfold Online_ADAGRAD_RDA.update_coordinate,
    ADAGRAD_RDA.update_coordinate, ADAGRAD_RDA.threshold, to_online.
  cbv zeta.
  cbn [Online_ADAGRAD_RDA._g Online_ADAGRAD_RDA._h Online_ADAGRAD_RDA._w
       Online_ADAGRAD_RDA.kEta Online_ADAGRAD_RDA.kLambda
       Online_ADAGRAD_RDA._timestep Online_ADAGRAD_RDA.kDim
       Online_ADAGRAD_RDA.set_g Online_ADAGRAD_RDA.set_h
       Online_ADAGRAD_RDA.set_w].
  destruct (coeff (ADAGRAD_RDA._g m) k) as [gi|]; [|done].
  cbn [mbind result_bind].
  destruct (set_coeff (ADAGRAD_RDA._g m) k _) as [g|]; [|done].
  cbn [mbind result_bind ADAGRAD_RDA.set_g ADAGRAD_RDA._h ADAGRAD_RDA._g
       ADAGRAD_RDA._w ADAGRAD_RDA.kEta ADAGRAD_RDA.kLambda
       ADAGRAD_RDA._timestep ADAGRAD_RDA.kDim].
  destruct (coeff (ADAGRAD_RDA._h m) k) as [hi|]; [|done].
  cbn [mbind result_bind].
  destruct (set_coeff (ADAGRAD_RDA._h m) k _) as [h|]; [|done].
  cbn [mbind result_bind ADAGRAD_RDA.set_h ADAGRAD_RDA.set_g ADAGRAD_RDA._h
       ADAGRAD_RDA._g ADAGRAD_RDA._w ADAGRAD_RDA.kEta ADAGRAD_RDA.kLambda
       ADAGRAD_RDA._timestep ADAGRAD_RDA.kDim].
  destruct (coeff g k) as [gi'|]; [|done]. cbn [mbind result_bind].
  destruct (coeff h k) as [hi'|]; [|done]. cbn [mbind result_bind].
  case_decide.
  - destruct (set_coeff (ADAGRAD_RDA._w m) k 0) as [w|]; done.
  - destruct (set_coeff (ADAGRAD_RDA._w m) k _) as [w|]; done.
Qed.

(** X14. The ADAGRAD_RDA of [src/online] and the one of
    [classifier/binary] compute the same model.  Let the two iteration
    helpers ([utility::enumerate] and [functions::enumerate]) visit the same
    entries, let the dimension of the object fit the [int] member of the
    earlier class and the size of the vector its [int] index.  Then, on
    objects with the same members, the earlier [update] leaves the members
    the later one leaves, or stops with the same error, and [predict]
    returns the same label.  The earlier [update] returns nothing where the
    later returns whether it changed the object. *)
Theorem Online_ADAGRAD_RDA_agrees (Eonline Ebinary : Enumerate)
    (m : ADAGRAD_RDA.t) (x : VectorXd) (y : Z) :
  (forall value, @visits Eonline value = @visits Ebinary value) ->
  (0 <= ADAGRAD_RDA.kDim m < 2 ^ 31)%Z ->
  (Z.of_nat (length x) < 2 ^ 31)%Z ->
  Online_ADAGRAD_RDA.update (E := Eonline) (to_online m) x y
  = match ADAGRAD_RDA.update (E := Ebinary) m x y with
    | Ok (_, m') => Ok (to_online m')
    | Err e => Err e
    end
  /\ Online_ADAGRAD_RDA.predict (to_online m) x = ADAGRAD_RDA.predict m x.
Proof.
  intros Hvisits _ _. split.
  - unfold Online_ADAGRAD_RDA.update, ADAGRAD_RDA.update,
      Online_ADAGRAD_RDA.suffer_loss, ADAGRAD_RDA.suffer_loss.
    cbn [to_online Online_ADAGRAD_RDA._w].
    destruct (dot (ADAGRAD_RDA._w m) x) as [d|]; [|done].
    cbn [mbind result_bind mret result_ret]. case_decide; [done|].
    cbv zeta.
    change (Online_ADAGRAD_RDA.set_timestep (to_online m)
              (size_t_incr (Online_ADAGRAD_RDA._timestep (to_online m))))
      with (to_online (ADAGRAD_RDA.set_timestep m
                         (size_t_incr (ADAGRAD_RDA._timestep m)))).
    rewrite (enumerate_transport Ebinary Eonline to_online
               (ADAGRAD_RDA.update_coordinate y)
               (Online_ADAGRAD_RDA.update_coordinate y)
               Hvisits (Online_update_coordinate_agrees y)).
    by destruct (enumerate x 0 _ _).
  - done.
Qed.

Lemma Online_ADAGRAD_RDA_agrees_witness :
  Online_ADAGRAD_RDA.update (E := visit_nonzero)
    (to_online (ADAGRAD_RDA.mk 2 1 1 0 [0; 0] [0; 0] [0; 0])) [3; 0] 1
  = match ADAGRAD_RDA.update (E := visit_nonzero)
            (ADAGRAD_RDA.mk 2 1 1 0 [0; 0] [0; 0] [0; 0]) [3; 0] 1 with
    | Ok (_, m') => Ok (to_online m')
    | Err e => Err e
    end.
Proof.
  apply (proj1 (Online_ADAGRAD_RDA_agrees visit_nonzero visit_nonzero
                  (ADAGRAD_RDA.mk 2 1 1 0 [0; 0] [0; 0] [0; 0]) [3; 0] 1
                  (fun value => eq_refl) ltac:(simpl; lia)
                  ltac:(simpl; lia))).
Defined.

(** ** update of ADAM *)

(** The callback on a coordinate that is in range. *)
Lemma ADAM_update_coordinate_Ok (beta1_t : R) (k : nat) (value : R)
    (a : ADAM.t) (mi vi wi : R) :
  ADAM._m a !! k = Some mi ->
  ADAM._v a !! k = Some vi ->
  ADAM._w a !! k = Some wi ->
  let m' := beta1_t * mi + (1 - beta1_t) * value in
  let v' := ADAM.kBeta2 * vi + (1 - ADAM.kBeta2) * value * value in
  let m_t := m' / (1 - std_pow ADAM.kBeta1 (ADAM._timestep a)) in
  let v_t := v' / (1 - std_pow ADAM.kBeta2 (ADAM._timestep a)) in
  ADAM.update_coordinate beta1_t k value a
  = Ok (ADAM.mk (ADAM.kDim a) (ADAM._timestep a)
          (<[k := wi - ADAM.kAlpha * m_t / (sqrt v_t + ADAM.kEpsilon)]>
             (ADAM._w a))
          (<[k := m']> (ADAM._m a))
          (<[k := v']> (ADAM._v a))).
Proof.
  intros Hm Hv Hw m' v' m_t v_t.
  pose proof (lookup_lt_Some _ _ _ Hm) as Hmk.
  pose proof (lookup_lt_Some _ _ _ Hv) as Hvk.
  pose proof (lookup_lt_Some _ _ _ Hw) as Hwk.
  unfold ADAM.update_coordinate.
  rewrite (coeff_Some _ _ _ Hm). cbn [mbind result_bind].
  rewrite set_coeff_lt by done. cbn [mbind result_bind]. cbv zeta.
  unfold ADAM.set_m, ADAM.set_v, ADAM.set_w.
  cbn [ADAM._m ADAM._v ADAM._w ADAM.kDim ADAM._timestep].
  rewrite (coeff_Some _ _ _ Hv). cbn [mbind result_bind].
  rewrite set_coeff_lt by done. cbn [mbind result_bind].
  rewrite !coeff_insert by done. cbn [mbind result_bind].
  rewrite (coeff_Some _ _ _ Hw). cbn [mbind result_bind].
  rewrite set_coeff_lt by done. reflexivity.
Qed.

(** What one [update] does to the object. *)
Lemma ADAM_update_coordinates {E : Enumerate} (a : ADAM.t)
    (x : VectorXd) (y : Z) :
  length (ADAM._w a) = length x ->
  length (ADAM._m a) = length x ->
  length (ADAM._v a) = length x ->
  exists loss,
    ADAM.suffer_loss a x y = Ok loss
    /\ loss = hinge y (sum_of_products (ADAM._w a) x)
    /\ (loss <= 0 -> ADAM.update a x y = Ok (false, a))
    /\ (loss > 0 ->
        exists a',
          ADAM.update a x y = Ok (true, a')
          /\ ADAM.kDim a' = ADAM.kDim a
          /\ ADAM._timestep a' = size_t_incr (ADAM._timestep a)
          /\ length (ADAM._w a') = length x
          /\ length (ADAM._m a') = length x
          /\ length (ADAM._v a') = length x
          /\ forall i xi mi vi wi,
              x !! i = Some xi ->
              ADAM._m a !! i = Some mi ->
              ADAM._v a !! i = Some vi ->
              ADAM._w a !! i = Some wi ->
              let gradiant := IZR (- y) * xi in
              let beta1_t :=
                std_pow ADAM.kLambda (ADAM._timestep a) * ADAM.kBeta1 in
              let timestep := size_t_incr (ADAM._timestep a) in
              let m' := beta1_t * mi + (1 - beta1_t) * gradiant in
              let v' := ADAM.kBeta2 * vi
                        + (1 - ADAM.kBeta2) * gradiant * gradiant in
              let m_t := m' / (1 - std_pow ADAM.kBeta1 timestep) in
              let v_t := v' / (1 - std_pow ADAM.kBeta2 timestep) in
              ADAM._m a' !! i = Some (if visits gradiant then m' else mi)
              /\ ADAM._v a' !! i = Some (if visits gradiant then v' else vi)
              /\ ADAM._w a' !! i
                 = Some (if visits gradiant
                         then wi - ADAM.kAlpha * m_t
                                   / (sqrt v_t + ADAM.kEpsilon)
                         else wi)).
Proof.
  intros Hlw Hlm Hlv.
  set (loss := std_max 0 (1 - IZR y * sum_of_products (ADAM._w a) x)).
  assert (Hloss : ADAM.suffer_loss a x y = Ok loss).
  { unfold ADAM.suffer_loss. by rewrite dot_Ok. }
  exists loss. split; [done|]. split; [apply std_max_Rmax|]. split.
  { intros Hle. unfold ADAM.update. rewrite Hloss. simpl.
    by rewrite decide_True. }
  intros Hpos.
  set (t1 := size_t_incr (ADAM._timestep a)).
  set (a1 := ADAM.set_timestep a t1).
  set (b1 := std_pow ADAM.kLambda (ADAM._timestep a) * ADAM.kBeta1).
  set (gradiant := (fun value => IZR (- y) * value) <$> x).
  set (I := fun (k : nat) (ak : ADAM.t) =>
    ADAM.kDim ak = ADAM.kDim a
    /\ ADAM._timestep ak = t1
    /\ length (ADAM._w ak) = length x
    /\ length (ADAM._m ak) = length x
    /\ length (ADAM._v ak) = length x
    /\ forall i xi mi vi wi,
        x !! i = Some xi ->
        ADAM._m a !! i = Some mi ->
        ADAM._v a !! i = Some vi ->
        ADAM._w a !! i = Some wi ->
        let g := IZR (- y) * xi in
        let b := bool_decide (i < k)%nat && visits g in
        let m' := b1 * mi + (1 - b1) * g in
        let v' := ADAM.kBeta2 * vi + (1 - ADAM.kBeta2) * g * g in
        ADAM._m ak !! i = Some (if b then m' else mi)
        /\ ADAM._v ak !! i = Some (if b then v' else vi)
        /\ ADAM._w ak !! i
           = Some (if b
                   then wi - ADAM.kAlpha
                             * (m' / (1 - std_pow ADAM.kBeta1 t1))
                             / (sqrt (v' / (1 - std_pow ADAM.kBeta2 t1))
                                + ADAM.kEpsilon)
                   else wi)).
  destruct (enumerate_invariant I (ADAM.update_coordinate b1) gradiant a1)
    as (a' & Hrun & Hend).
  - unfold I. split_and!; try done;
      intros i xi mi vi wi Hxi Hmi Hvi Hwi; cbn zeta;
      rewrite (bool_decide_eq_false_2 (i < 0)%nat) by lia; done.
  - intros k value ak Hk (HkDim & Ht & Hlwk & Hlmk & Hlvk & Hcells).
    unfold gradiant in Hk. rewrite list_lookup_fmap in Hk.
    destruct (x !! k) as [xk|] eqn:Hxk; [|discriminate].
    injection Hk as <-.
    pose proof (lookup_lt_Some _ _ _ Hxk) as Hklt.
    destruct (lookup_lt_is_Some_2 (ADAM._m a) k) as [mk0 Hmk0]; [lia|].
    destruct (lookup_lt_is_Some_2 (ADAM._v a) k) as [vk0 Hvk0]; [lia|].
    destruct (lookup_lt_is_Some_2 (ADAM._w a) k) as [wk0 Hwk0]; [lia|].
    destruct (Hcells k xk mk0 vk0 wk0 Hxk Hmk0 Hvk0 Hwk0) as (Hcm & Hcv & Hcw).
    cbn zeta in Hcm, Hcv, Hcw.
    rewrite (bool_decide_eq_false_2 (k < k)%nat) in Hcm, Hcv, Hcw by lia.
    cbn [andb] in Hcm, Hcv, Hcw.
    assert (Hother : forall i g, i <> k ->
              bool_decide (i < S k)%nat && visits g
              = bool_decide (i < k)%nat && visits g).
    { intros i g Hne. f_equal. apply bool_decide_ext. lia. }
    destruct (visits (IZR (- y) * xk)) eqn:Hvisit.
    + eexists. split.
      { by apply (ADAM_update_coordinate_Ok b1 k _ ak mk0 vk0 wk0). }
      unfold I. cbn [ADAM._m ADAM._v ADAM._w ADAM.kDim ADAM._timestep].
      rewrite !length_insert. split_and!; try done.
      intros i xi mi vi wi Hxi Hmi Hvi Hwi; cbn zeta.
      destruct (decide (i = k)) as [->|Hne].
      * rewrite !list_lookup_insert_eq by lia.
        rewrite (bool_decide_eq_true_2 (k < S k)%nat) by lia.
        rewrite Hxk in Hxi; injection Hxi as <-.
        rewrite Hmk0 in Hmi; injection Hmi as <-.
        rewrite Hvk0 in Hvi; injection Hvi as <-.
        rewrite Hwk0 in Hwi; injection Hwi as <-.
        rewrite Hvisit; cbn [andb]. by rewrite Ht.
      * rewrite !list_lookup_insert_ne by done.
        rewrite (Hother i _ Hne).
        by apply (Hcells i xi mi vi wi).
    + unfold I. split_and!; try done.
      intros i xi mi vi wi Hxi Hmi Hvi Hwi; cbn zeta.
      destruct (decide (i = k)) as [->|Hne].
      * rewrite Hxk in Hxi; injection Hxi as <-.
        rewrite Hmk0 in Hmi; injection Hmi as <-.
        rewrite Hvk0 in Hvi; injection Hvi as <-.
        rewrite Hwk0 in Hwi; injection Hwi as <-.
        rewrite Hvisit, andb_false_r. done.
      * rewrite (Hother i _ Hne).
        by apply (Hcells i xi mi vi wi).
  - destruct Hend as (HkDim & Ht & Hlwk & Hlmk & Hlvk & Hcells).
    exists a'. split_and!; try done.
    + unfold ADAM.update. rewrite Hloss. simpl.
      rewrite decide_False by lra. fold gradiant. fold b1. fold t1. fold a1.
      rewrite Hrun. reflexivity.
    + intros i xi mi vi wi Hxi Hmi Hvi Hwi.
      destruct (Hcells i xi mi vi wi Hxi Hmi Hvi Hwi) as (Hcm & Hcv & Hcw).
      cbn zeta in *. pose proof (lookup_lt_Some _ _ _ Hxi) as Hilt.
      unfold gradiant in Hcm, Hcv, Hcw. rewrite length_fmap in Hcm, Hcv, Hcw.
      rewrite (bool_decide_eq_true_2 (i < length x)%nat) in Hcm, Hcv, Hcw
        by done.
      done.
Qed.

(** X15. An effective [ADAM::update] (hinge loss positive) returns [true],
    increments [_timestep], keeps the sizes of [_w], [_m], [_v], and at every
    coordinate the loop visits, with the gradient [grad = -y * x[i]]:
    [m[i] = b1 * m[i] + (1 - b1) * grad] where [b1 = kLambda^t * kBeta1] is
    taken at the time step [t] before the increment;
    [v[i] = kBeta2 * v[i] + (1 - kBeta2) * grad^2]; and [w[i]] decreases by
    [kAlpha * mhat / (sqrt(vhat) + kEpsilon)] with [mhat = m[i] / (1 -
    kBeta1^(t+1))], [vhat = v[i] / (1 - kBeta2^(t+1))] at the incremented
    time step.  The other coordinates are kept. *)
Theorem ADAM_update_formulas {E : Enumerate} (a : ADAM.t) (x : VectorXd)
    (y : Z) :
  length (ADAM._w a) = length x ->
  length (ADAM._m a) = length x ->
  length (ADAM._v a) = length x ->
  hinge y (sum_of_products (ADAM._w a) x) > 0 ->
  exists a',
    ADAM.update a x y = Ok (true, a')
    /\ ADAM.kDim a' = ADAM.kDim a
    /\ ADAM._timestep a' = size_t_incr (ADAM._timestep a)
    /\ length (ADAM._w a') = length x
    /\ length (ADAM._m a') = length x
    /\ length (ADAM._v a') = length x
    /\ forall i xi mi vi wi,
        x !! i = Some xi ->
        ADAM._m a !! i = Some mi ->
        ADAM._v a !! i = Some vi ->
        ADAM._w a !! i = Some wi ->
        let grad := - IZR y * xi in
        let b1 := ADAM.kLambda ^ Z.to_nat (ADAM._timestep a) * ADAM.kBeta1 in
        let t' := Z.to_nat (ADAM._timestep a') in
        let m' := b1 * mi + (1 - b1) * grad in
        let v' := ADAM.kBeta2 * vi + (1 - ADAM.kBeta2) * grad ^ 2 in
        let mhat := m' / (1 - ADAM.kBeta1 ^ t') in
        let vhat := v' / (1 - ADAM.kBeta2 ^ t') in
        (visits grad = true ->
         ADAM._m a' !! i = Some m'
         /\ ADAM._v a' !! i = Some v'
         /\ ADAM._w a' !! i
            = Some (wi - ADAM.kAlpha * mhat / (sqrt vhat + ADAM.kEpsilon)))
        /\ (visits grad = false ->
            ADAM._m a' !! i = Some mi /\ ADAM._v a' !! i = Some vi
            /\ ADAM._w a' !! i = Some wi).
Proof.
  intros Hlw Hlm Hlv Hpos.
  destruct (ADAM_update_coordinates a x y Hlw Hlm Hlv)
    as (loss & _ & -> & _ & Heff).
  destruct (Heff Hpos) as (a' & Hup & HkDim & Ht & Hlw' & Hlm' & Hlv' & Hcells).
  exists a'. split_and!; try done.
  intros i xi mi vi wi Hxi Hmi Hvi Hwi.
  destruct (Hcells i xi mi vi wi Hxi Hmi Hvi Hwi) as (Hm1 & Hv1 & Hw1).
  cbn zeta in *. rewrite opp_IZR in Hm1, Hv1, Hw1. rewrite Ht.
  unfold std_pow in *.
  replace ((1 - ADAM.kBeta2) * (- IZR y * xi) ^ 2)
    with ((1 - ADAM.kBeta2) * (- IZR y * xi) * (- IZR y * xi))
    by (simpl; ring).
  split; intros Hvisit; rewrite Hvisit in Hm1, Hv1, Hw1; done.
Qed.

Lemma ADAM_update_formulas_witness :
  exists a',
    ADAM.update (E := visit_all) (ADAM.mk 2 0 [0; 0] [0; 0] [0; 0]) [1; 3] 1
    = Ok (true, a')
    /\ ADAM._timestep a' = 1%Z.
Proof.
  destruct (ADAM_update_formulas (E := visit_all)
              (ADAM.mk 2 0 [0; 0] [0; 0] [0; 0]) [1; 3] 1
              eq_refl eq_refl eq_refl)
    as (a' & Hup & _ & Ht & _).
  - unfold hinge, Rmax. simpl. destruct (Rle_dec _ _); lra.
  - exists a'. split; [exact Hup|]. exact Ht.
Defined.

(** ** NHERD: the covariance formulas *)

(** The lambdas of selector 0 (full) and of selector 3 (drop) compute the
    same value. *)
Lemma covariance_body_case0_case3 (C covariance confidence value : R) :
  NHERD.covariance_body C NHERD.cov_case0 covariance confidence value
  = NHERD.covariance_body C NHERD.cov_case3 covariance confidence value.
Proof. unfold NHERD.covariance_body. cbv zeta. simpl. unfold Rdiv. ring. Qed.

(** X17. The covariance modes 0 (full) and 3 (drop) of NHERD are one and
    the same update: two objects that differ only in having been
    constructed with selector 0 and selector 3 return the same flag from
    [update] and have the same means and covariances afterwards. *)
Theorem NHERD_full_and_drop_agree {E : Enumerate} (m0 m3 : NHERD.t)
    (x : VectorXd) (y : Z) :
  NHERD._compute_covariance m0 = Some NHERD.cov_case0 ->
  NHERD._compute_covariance m3 = Some NHERD.cov_case3 ->
  NHERD.kC m3 = NHERD.kC m0 ->
  NHERD._means m3 = NHERD._means m0 ->
  NHERD._covariances m3 = NHERD._covariances m0 ->
  length (NHERD._means m0) = length x ->
  length (NHERD._covariances m0) = length x ->
  exists b m0' m3',
    NHERD.update m0 x y = Ok (b, m0')
    /\ NHERD.update m3 x y = Ok (b, m3')
    /\ NHERD._means m3' = NHERD._means m0'
    /\ NHERD._covariances m3' = NHERD._covariances m0'.
Proof.
  intros Hf0 Hf3 HC Hmeans Hcov Hlm Hlc.
  destruct (decide (NHERD.suffer_loss
                      (sum_of_products (NHERD._means m0) x) y >= 1))
    as [Hskip|Hgo].
  - exists false, m0, m3. split_and!; try done.
    + unfold NHERD.update, NHERD.compute_margin. rewrite dot_Ok by done.
      cbn [mbind result_bind]. by rewrite decide_True.
    + unfold NHERD.update, NHERD.compute_margin. rewrite Hmeans.
      rewrite dot_Ok by done. cbn [mbind result_bind].
      by rewrite decide_True.
  - destruct (NHERD_update_coordinates m0 NHERD.cov_case0 x y Hf0 Hlm Hlc)
      as (m0' & Hup0 & _ & _ & _ & _ & Hlm0 & Hlc0 & Hcells0); [lra|].
    destruct (NHERD_update_coordinates m3 NHERD.cov_case3 x y Hf3)
      as (m3' & Hup3 & _ & _ & _ & _ & Hlm3 & Hlc3 & Hcells3);
      [congruence | congruence | rewrite Hmeans; lra |].
    exists true, m0', m3'. split_and!; try done.
    + apply list_eq. intros i.
      destruct (x !! i) as [xi|] eqn:Hxi.
      * pose proof (lookup_lt_Some _ _ _ Hxi) as Hi.
        destruct (lookup_lt_is_Some_2 (NHERD._means m0) i) as [mi Hmi];
          [lia|].
        destruct (lookup_lt_is_Some_2 (NHERD._covariances m0) i)
          as [ci Hci]; [lia|].
        rewrite (proj1 (Hcells0 i xi mi ci Hxi Hmi Hci)).
        rewrite (proj1 (Hcells3 i xi mi ci Hxi ltac:(congruence)
                          ltac:(congruence))).
        by rewrite Hmeans, Hcov, HC.
      * apply lookup_ge_None in Hxi.
        rewrite !(proj2 (lookup_ge_None _ _)) by lia. done.
    + apply list_eq. intros i.
      destruct (x !! i) as [xi|] eqn:Hxi.
      * pose proof (lookup_lt_Some _ _ _ Hxi) as Hi.
        destruct (lookup_lt_is_Some_2 (NHERD._means m0) i) as [mi Hmi];
          [lia|].
        destruct (lookup_lt_is_Some_2 (NHERD._covariances m0) i)
          as [ci Hci]; [lia|].
        rewrite (proj2 (Hcells0 i xi mi ci Hxi Hmi Hci)).
        rewrite (proj2 (Hcells3 i xi mi ci Hxi ltac:(congruence)
                          ltac:(congruence))).
        by rewrite Hcov, HC, covariance_body_case0_case3.
      * apply lookup_ge_None in Hxi.
        rewrite !(proj2 (lookup_ge_None _ _)) by lia. done.
Qed.

Lemma NHERD_full_and_drop_agree_witness :
  exists b m0' m3',
    NHERD.update (E := visit_all)
      (NHERD.mk 2 1 0 [1; 1] [0; 0] (Some NHERD.cov_case0)) [1; 2] 1
    = Ok (b, m0')
    /\ NHERD.update (E := visit_all)
         (NHERD.mk 2 1 3 [1; 1] [0; 0] (Some NHERD.cov_case3)) [1; 2] 1
       = Ok (b, m3')
    /\ NHERD._means m3' = NHERD._means m0'
    /\ NHERD._covariances m3' = NHERD._covariances m0'.
Proof.
  apply (NHERD_full_and_drop_agree (E := visit_all)
           (NHERD.mk 2 1 0 [1; 1] [0; 0] (Some NHERD.cov_case0))
           (NHERD.mk 2 1 3 [1; 1] [0; 0] (Some NHERD.cov_case3))
           [1; 2] 1); reflexivity.
Defined.

(** ** The dimension of the examples *)

(** X20. In each of the four classes, on an object whose vectors have one
    size [n] (and, for PA and NHERD, whose formula object the constructor
    set), [update] returns on every vector of size [n], whatever its
    entries and the label; on a vector of any other size [update] and
    [predict] stop at Eigen's size assertion. *)
Theorem update_returns_on_the_dimension {E : Enumerate} (x : VectorXd)
    (y : Z) :
  (forall (m : PA.t) f,
      PA._compute_tau m = Some f ->
      (length (PA._weight m) = length x ->
       exists m', PA.update m x y = Ok (true, m'))
      /\ (length (PA._weight m) <> length x ->
          PA.update m x y = Err AssertionFailed
          /\ PA.predict m x = Err AssertionFailed))
  /\ (forall (m : ADAGRAD_RDA.t),
      ADAGRAD_RDA_sized (length (ADAGRAD_RDA._w m)) m ->
      (length (ADAGRAD_RDA._w m) = length x ->
       exists b m', ADAGRAD_RDA.update m x y = Ok (b, m'))
      /\ (length (ADAGRAD_RDA._w m) <> length x ->
          ADAGRAD_RDA.update m x y = Err AssertionFailed
          /\ ADAGRAD_RDA.predict m x = Err AssertionFailed))
  /\ (forall (a : ADAM.t),
      length (ADAM._m a) = length (ADAM._w a) ->
      length (ADAM._v a) = length (ADAM._w a) ->
      (length (ADAM._w a) = length x ->
       exists b a', ADAM.update a x y = Ok (b, a'))
      /\ (length (ADAM._w a) <> length x ->
          ADAM.update a x y = Err AssertionFailed
          /\ ADAM.predict a x = Err AssertionFailed))
  /\ (forall (m : NHERD.t) f,
      NHERD._compute_covariance m = Some f ->
      length (NHERD._covariances m) = length (NHERD._means m) ->
      (length (NHERD._means m) = length x ->
       exists b m', NHERD.update m x y = Ok (b, m'))
      /\ (length (NHERD._means m) <> length x ->
          NHERD.update m x y = Err AssertionFailed
          /\ NHERD.predict m x = Err AssertionFailed)).
Proof.
  split_and!.
  - intros m f Hf. split.
    + intros Hlen.
      destruct (PA_update_coordinates m f x y Hf Hlen)
        as (loss & m' & _ & _ & Hup & _).
      by exists m'.
    + intros Hlen.
      unfold PA.update, PA.predict, PA.suffer_loss, PA.compute_margin, dot.
      by rewrite decide_False.
  - intros m (_ & Hlh & Hlg). split.
    + intros Hlen.
      destruct (ADAGRAD_RDA_update_coordinates m x y)
        as (loss & _ & _ & Hskip & Heff); try congruence.
      destruct (decide (loss <= 0)) as [Hle|Hgt].
      * exists false, m. by apply Hskip.
      * destruct Heff as (m' & Hup & _); [lra|]. by exists true, m'.
    + intros Hlen.
      unfold ADAGRAD_RDA.update, ADAGRAD_RDA.predict,
        ADAGRAD_RDA.suffer_loss, ADAGRAD_RDA.calculate_margin, dot.
      by rewrite decide_False.
  - intros a Hlm Hlv. split.
    + intros Hlen.
      destruct (ADAM_update_coordinates a x y)
        as (loss & _ & _ & Hskip & Heff); try congruence.
      destruct (decide (loss <= 0)) as [Hle|Hgt].
      * exists false, a. by apply Hskip.
      * destruct Heff as (a' & Hup & _); [lra|]. by exists true, a'.
    + intros Hlen.
      unfold ADAM.update, ADAM.predict, ADAM.suffer_loss,
        ADAM.calculate_margin, dot.
      by rewrite decide_False.
  - intros m f Hf Hlc. split.
    + intros Hlen.
      destruct (decide (NHERD.suffer_loss
                          (sum_of_products (NHERD._means m) x) y >= 1))
        as [Hskip|Hgo].
      * exists false, m. unfold NHERD.update, NHERD.compute_margin.
        rewrite dot_Ok by done. cbn [mbind result_bind].
        by rewrite decide_True.
      * destruct (NHERD_update_coordinates m f x y Hf Hlen
                    ltac:(congruence)) as (m' & Hup & _); [lra|].
        by exists true, m'.
    + intros Hlen.
      unfold NHERD.update, NHERD.predict, NHERD.compute_margin, dot.
      by rewrite decide_False.
Qed.

Lemma update_returns_on_the_dimension_witness :
  (exists m',
      PA.update (E := visit_all) (PA.mk 2 1 0 [0; 0] (Some PA.tau_case0))
        [1; 2] 1 = Ok (true, m'))
  /\ ADAM.update (E := visit_all) (ADAM.mk 2 0 [0; 0] [0; 0] [0; 0])
       [1; 2; 3] 1 = Err AssertionFailed.
Proof.
  split.
  - apply (proj1 (proj1 (update_returns_on_the_dimension (E := visit_all)
                           [1; 2] 1)
                    (PA.mk 2 1 0 [0; 0] (Some PA.tau_case0)) PA.tau_case0
                    eq_refl)).
    reflexivity.
  - apply (proj2 (proj1 (proj2 (proj2 (update_returns_on_the_dimension
                                          (E := visit_all) [1; 2; 3] 1)))
                    (ADAM.mk 2 0 [0; 0] [0; 0] [0; 0]) eq_refl eq_refl)).
    simpl. lia.
Defined.
